(** * updatetokenxml: the token catalog matcher and entry synthesizer

    A shallow embedding of [updatetokenxml.py]: [fetchTokenInfo], [xmlMatch],
    [createXmlEntry] and the loop of [updateTokenXML].

    - A Python [str] is a list of code points ([str], [char := N]); [lit]
      turns an ASCII literal of the source into one.
    - A dict read from the Scryfall JSON is a record whose fields are
      options: [None] is an absent key, and a subscript on it raises
      [KeyError].
    - An lxml element is [element]: tag, attributes, text ([None] when the
      element has no text) and child elements.  Comments, processing
      instructions and tail text are not represented.  lxml refuses a string
      that is not XML-compatible (a NUL or a control character in it) with
      [ValueError] when an element is built from it; that path is left out:
      where the model builds an element it stands for a call that returns.
    - A Python exception is the [Raise] case of [result].
    - The network client, the files and the console output are outside the
      model: the token list and the parsed catalog are arguments.  The page
      loop of [pullScryfallAPI] is modelled over the answers of the server,
      given as a function of request number and URL: every request is
      answered, with a JSON dict. *)

From Stdlib Require Import List NArith Bool Arith Lia String Ascii Permutation Sorted.
Import ListNotations.

Set Implicit Arguments.

(** ** Python strings *)

Definition char := N.
Definition str := list char.

Definition lit (s : string) : str := map N_of_ascii (list_ascii_of_string s).
Arguments lit s%_string.

(** [a == b] on strings. *)
Fixpoint str_eqb (a b : str) : bool :=
  match a, b with
  | [], [] => true
  | c :: a', d :: b' => N.eqb c d && str_eqb a' b'
  | _, _ => false
  end.

(** [a == b] on lists of strings. *)
Fixpoint strs_eqb (a b : list str) : bool :=
  match a, b with
  | [], [] => true
  | x :: a', y :: b' => str_eqb x y && strs_eqb a' b'
  | _, _ => false
  end.

(** [s.startswith(p)] *)
Fixpoint startswith (s p : str) : bool :=
  match p, s with
  | [], _ => true
  | c :: p', d :: s' => N.eqb c d && startswith s' p'
  | _ :: _, [] => false
  end.

(** [p in s] for strings: [p] occurs in [s] as a substring. *)
Fixpoint contains (p s : str) : bool :=
  startswith s p ||
  match s with
  | [] => false
  | _ :: s' => contains p s'
  end.

(** [s.find(p)]: the index of the first occurrence, [None] for Python's -1. *)
Fixpoint find_sub (p s : str) : option nat :=
  if startswith s p then Some 0
  else match s with
       | [] => None
       | _ :: s' => option_map S (find_sub p s')
       end.

(** [s.rfind(p)]: the index of the last occurrence. *)
Fixpoint rfind_sub (p s : str) : option nat :=
  match s with
  | [] => if startswith s p then Some 0 else None
  | _ :: s' =>
      match rfind_sub p s' with
      | Some i => Some (S i)
      | None => if startswith s p then Some 0 else None
      end
  end.

(** [s.split(sep)] for a non-empty [sep]: scan left to right, cut at every
    occurrence that does not overlap the previous one.  [skip] counts the
    characters of a separator still to be passed over, [cur] is the piece
    being read, reversed. *)
Fixpoint split_go (sep : str) (skip : nat) (cur : str) (s : str) : list str :=
  match s with
  | [] => [rev cur]
  | c :: s' =>
      match skip with
      | S k => split_go sep k cur s'
      | O =>
          if startswith s sep
          then rev cur :: split_go sep (List.length sep - 1) [] s'
          else split_go sep 0 (c :: cur) s'
      end
  end.

Definition split (sep s : str) : list str := split_go sep 0 [] s.

(** [x in l] for a list of strings. *)
Definition in_list (x : str) (l : list str) : bool := existsb (str_eqb x) l.

(** [a < b or a == b] on strings: lexicographic on code points. *)
Fixpoint str_leb (a b : str) : bool :=
  match a, b with
  | [], _ => true
  | _ :: _, [] => false
  | c :: a', d :: b' =>
      match N.compare c d with
      | Lt => true
      | Gt => false
      | Eq => str_leb a' b'
      end
  end.

Fixpoint insert_sorted (x : str) (l : list str) : list str :=
  match l with
  | [] => [x]
  | y :: l' => if str_leb x y then x :: l else y :: insert_sorted x l'
  end.

(** [sorted(l)] on a list of strings. *)
Definition sorted (l : list str) : list str := fold_right insert_sorted [] l.

(** The order that [sorted] puts its result in. *)
Definition str_le (a b : str) : Prop := str_leb a b = true.

(** [list(s)]: the one-character strings of [s]. *)
Definition chars (s : str) : list str := map (fun c => [c]) s.

(** ["".join(l)] *)
Definition join (l : list str) : str := List.concat l.

(** [str.upper()] on ASCII letters, for running the model on set codes. *)
Definition ascii_upper (s : str) : str :=
  map (fun c => if (97 <=? c)%N && (c <=? 122)%N then (c - 32)%N else c) s.

(** ** Exceptions *)

Inductive exn :=
| KeyError (key : str)
| AttributeError.

Inductive result (A : Type) :=
| Ok (a : A)
| Raise (e : exn).
Arguments Ok {A} a.
Arguments Raise {A} e.

Definition bind {A B} (r : result A) (k : A -> result B) : result B :=
  match r with
  | Ok a => k a
  | Raise e => Raise e
  end.

Notation "x <- r ;; k" := (bind r (fun x => k))
  (at level 61, r at next level, right associativity).
Notation "' p <- r ;; k" := (bind r (fun x => match x with p => k end))
  (at level 61, p pattern, r at next level, right associativity).

(** [d[key]] on a dict read from JSON. *)
Definition subscript {A} (field : option A) (key : string) : result A :=
  match field with
  | Some v => Ok v
  | None => Raise (KeyError (lit key))
  end.

(** ** lxml elements *)

#[warnings="-register-all"]
Inductive element := Element {
  tag : str;
  attrib : list (str * str);
  text : option str;
  children : list element
}.

Definition has_tag (t : str) (e : element) : bool := str_eqb (tag e) t.

(** [e.find(t)] for a tag name [t]: the first child with that tag. *)
Definition find (e : element) (t : str) : option element :=
  List.find (has_tag t) (children e).

(** [e.findall('./t1/t2')]: the [t2] children of the [t1] children, in
    document order. *)
Definition findall_path (e : element) (t1 t2 : str) : list element :=
  flat_map (fun p => filter (has_tag t2) (children p))
           (filter (has_tag t1) (children e)).

(** [e.find('./t1/t2')] *)
Definition find_path (e : element) (t1 t2 : str) : option element :=
  hd_error (findall_path e t1 t2).

(** What [findtext] returns for an element it has found: its text, the empty
    string when it has none. *)
Definition text_or_empty (e : element) : str :=
  match text e with
  | Some s => s
  | None => []
  end.

(** [e.findtext(t)]; [None] when there is no such child. *)
Definition findtext (e : element) (t : str) : option str :=
  option_map text_or_empty (find e t).

Definition findtext_path (e : element) (t1 t2 : str) : option str :=
  option_map text_or_empty (find_path e t1 t2).

(** [etree.iselement(x)] for the result of a [find]. *)
Definition iselement (x : option element) : bool :=
  match x with
  | Some _ => true
  | None => false
  end.

(** [e.insert(index, new)] for [index >= 0]: past the last child it appends. *)
Definition insert_child (index : nat) (new e : element) : element :=
  Element (tag e) (attrib e) (text e)
          (firstn index (children e) ++ new :: skipn index (children e)).

(** [e.findall('./cards/')]: a path ending in [/] stands for [./cards/*], the
    children of the [cards] children of [e]. *)
Definition findall_cards (e : element) : list element :=
  flat_map children (filter (has_tag (lit "cards")) (children e)).

(** ** Scryfall records *)

(** [image_uris] is a dict of its own: [Some None] is the dict without the
    key [large]. *)
Record sf_entry := {
  name : option str;
  oracle_text : option str;
  type_line : option str;
  colors : option (list str);
  power : option str;
  toughness : option str;
  image_uris : option (option str)
}.

Record sf_token := {
  entry : sf_entry;
  layout : option str;
  card_faces : option (list sf_entry)
}.

Record token_info := {
  token_name : str;
  token_text : str;
  token_type : str;
  token_colors : list str;
  token_pt : str;
  token_image : str
}.

(** ** Constants *)

Definition SHORT_TAG_LIST : list str :=
  [lit "Emblem"; lit "Dungeon"; lit "Card"; lit "Token"].

(** The separator literal of line 219, as the source file has it: a space,
    U+00E2, U+20AC, U+201D, a space. *)
Definition SUBTYPE_SEP : str := [32; 226; 8364; 8221; 32]%N.

(** ** fetchTokenInfo *)

Definition fetchTokenInfo (sf : sf_entry) : result token_info :=
  nm <- subscript (name sf) "name" ;;
  tx <- subscript (oracle_text sf) "oracle_text" ;;
  ty <- subscript (type_line sf) "type_line" ;;
  cs <- subscript (colors sf) "colors" ;;
  let pt :=
    match power sf, toughness sf with
    | Some p, Some t => p ++ lit "/" ++ t
    | _, _ => []
    end in
  uris <- subscript (image_uris sf) "image_uris" ;;
  img <- subscript uris "large" ;;
  Ok {| token_name := nm;
        token_text := tx;
        token_type := ty;
        token_colors := sorted cs;
        token_pt := pt;
        token_image := img |}.

(** ** createXmlEntry: the parts that do not use the set code *)

Definition leaf (t : string) (s : str) : element :=
  Element (lit t) [] (Some s) [].

(** Lines 194-214: the text of [maintype], from the text of [type]. *)
Definition maintype_text (card_type_text : str) : str :=
  if contains (lit "Emblem") card_type_text then lit "Emblem"
  else if contains (lit "Dungeon") card_type_text then lit "Dungeon"
  else if contains (lit "Creature") card_type_text then lit "Creature"
  else if contains (lit "Artifact") card_type_text then lit "Artifact"
  else if contains (lit "Enchantment") card_type_text then lit "Enchantment"
  else lit "Please edit manually".

(** Lines 216-228: the text of [name] after the [try] block.  [nth_error]
    returning [None] is the [IndexError] that the [except] clause passes
    over. *)
Definition name_text (info : token_info) (card_type_text : str) : str :=
  match nth_error (split SUBTYPE_SEP card_type_text) 1 with
  | Some subtype =>
      if str_eqb subtype (token_name info)
      then token_name info ++ lit " Token"
      else token_name info
  | None => token_name info
  end.

(** The children of [prop], lines 184-237. *)
Definition prop_children (info : token_info) : list element :=
  (if negb (strs_eqb (token_colors info) [])
   then [leaf "colors" (join (token_colors info))] else [])
  ++ [leaf "type" (token_type info);
      leaf "maintype" (maintype_text (token_type info))]
  ++ (if negb (in_list (token_type info) SHORT_TAG_LIST)
      then [leaf "cmc" (lit "0")] else [])
  ++ (if negb (str_eqb (token_pt info) [])
      then [leaf "pt" (token_pt info)] else []).

Section Sync.

(** [str.upper()].  The code applies it to the set code only, and nothing
    below depends on what it computes. *)
Variable upper : str -> str.

(** The [set] element of lines 147-148 and 239-241, for strings that lxml
    accepts. *)
Definition set_line (info : token_info) (set_code : str) : element :=
  Element (lit "set") [(lit "picURL", token_image info)]
          (Some (upper set_code)) [].

(** ** createXmlEntry *)

Definition createXmlEntry (info : token_info) (set_code : str) : element :=
  let card_type_text := token_type info in
  let name := leaf "name" (name_text info card_type_text) in
  let text :=
    if negb (str_eqb (token_text info) [])
    then [leaf "text" (token_text info)] else [] in
  let prop := Element (lit "prop") [] None (prop_children info) in
  let card_set := set_line info set_code in
  let related :=
    if contains (lit "transform") (token_text info)
       || contains (lit "Transform") (token_text info)
    then [leaf "related" []] else [] in
  let reverse_related := leaf "reverse-related" [] in
  let token := leaf "token" (lit "1") in
  let tablerow :=
    leaf "tablerow"
         (if str_eqb (maintype_text card_type_text) (lit "Creature")
          then lit "2" else lit "1") in
  Element (lit "card") [] None
          ([name] ++ text ++ [prop; card_set] ++ related
           ++ [reverse_related; token; tablerow]).

(** ** xmlMatch *)

(** Lines 122-145: the condition of the [if], for one entry.  Python's [and]
    evaluates left to right and stops at the first false operand.
    [xml_name] is [None] when the entry has no [name] child, and
    [None.startswith] raises [AttributeError]; so does [.text] on the [None]
    that [find('./prop/type')] returns when there is no such element. *)
Definition card_matches (xml_card : element) (info : token_info) : result bool :=
  let xml_name := findtext xml_card (lit "name") in
  let xml_text :=
    match find xml_card (lit "text") with
    | Some el => text_or_empty el
    | None => []
    end in
  let xml_colors :=
    match find_path xml_card (lit "prop") (lit "colors") with
    | Some el => sorted (chars (text_or_empty el))
    | None => []
    end in
  let xml_pt :=
    match find_path xml_card (lit "prop") (lit "pt") with
    | Some el => text_or_empty el
    | None => []
    end in
  match xml_name with
  | None => Raise AttributeError
  | Some nm =>
      if negb (startswith nm (token_name info)) then Ok false
      else if negb (str_eqb xml_text (token_text info)) then Ok false
      else
        match find_path xml_card (lit "prop") (lit "type") with
        | None => Raise AttributeError
        | Some ty =>
            if negb (match text ty with
                     | Some t => str_eqb t (token_type info)
                     | None => false
                     end) then Ok false
            else if negb (strs_eqb xml_colors (token_colors info)) then Ok false
            else Ok (str_eqb xml_pt (token_pt info))
        end
  end.

(** Lines 147-155: the entry after the insertion of the new [set] line. *)
Definition add_set_line (xml_card : element) (info : token_info)
    (set_code : str) : element :=
  let new := set_line info set_code in
  if iselement (find xml_card (lit "text"))
  then insert_child 3 new xml_card
  else insert_child 2 new xml_card.

(** The state of the loop: [match_found] and the global [reprint_count]. *)
Definition match_state := (bool * nat)%type.

(** One iteration of the [for] loop of line 117.  The entry is changed in
    place; here the changed entry is returned. *)
Definition xmlMatch_card (info : token_info) (set_code : str)
    (st : match_state) (xml_card : element) : result (element * match_state) :=
  m <- card_matches xml_card info ;;
  if m then Ok (add_set_line xml_card info set_code, (true, S (snd st)))
  else Ok (xml_card, st).

(** The loop over the entries of one [cards] element. *)
Fixpoint xmlMatch_cards (info : token_info) (set_code : str)
    (st : match_state) (cards : list element)
  : result (list element * match_state) :=
  match cards with
  | [] => Ok ([], st)
  | c :: rest =>
      '(c', st1) <- xmlMatch_card info set_code st c ;;
      '(rest', st2) <- xmlMatch_cards info set_code st1 rest ;;
      Ok (c' :: rest', st2)
  end.

(** The loop over [findall('./cards/')], following the children of the root:
    the entries are the children of its [cards] children, visited in document
    order; everything else is left alone. *)
Fixpoint xmlMatch_children (info : token_info) (set_code : str)
    (st : match_state) (cs : list element)
  : result (list element * match_state) :=
  match cs with
  | [] => Ok ([], st)
  | c :: rest =>
      if has_tag (lit "cards") c then
        '(es, st1) <- xmlMatch_cards info set_code st (children c) ;;
        '(rest', st2) <- xmlMatch_children info set_code st1 rest ;;
        Ok (Element (tag c) (attrib c) (text c) es :: rest', st2)
      else
        '(rest', st2) <- xmlMatch_children info set_code st rest ;;
        Ok (c :: rest', st2)
  end.

(** [xmlMatch(xml_root, token_info, set_code)] run with the global
    [reprint_count] at the given value: the tree after the call, the value
    returned and the counter after the call.  When an exception is raised the
    tree and the counter of that moment are not kept: nothing catches it and
    the program ends. *)
Definition xmlMatch (xml_root : element) (info : token_info) (set_code : str)
    (reprint_count : nat) : result (element * bool * nat) :=
  '(cs, (match_found, count)) <-
     xmlMatch_children info set_code (false, reprint_count) (children xml_root) ;;
  Ok (Element (tag xml_root) (attrib xml_root) (text xml_root) cs,
      match_found, count).

(** ** updateTokenXML *)

(** The trees and counters of lines 278-290. *)
Record sync_state := {
  xml_root : element;
  cards : list element;
  new_token_count : nat;
  double_faced_count : nat;
  reprint_count : nat
}.

(** Lines 305-310 and 319-324. *)
Definition match_or_create (set_code : str) (st : sync_state)
    (info : token_info) : result sync_state :=
  '(root', match_found, count) <-
     xmlMatch (xml_root st) info set_code (reprint_count st) ;;
  if negb match_found then
    Ok {| xml_root := root';
          cards := cards st ++ [createXmlEntry info set_code];
          new_token_count := S (new_token_count st);
          double_faced_count := double_faced_count st;
          reprint_count := count |}
  else
    Ok {| xml_root := root';
          cards := cards st;
          new_token_count := new_token_count st;
          double_faced_count := double_faced_count st;
          reprint_count := count |}.

(** The loop of line 299 over the faces of a double-faced token. *)
Fixpoint sync_faces (set_code : str) (st : sync_state)
    (faces : list sf_entry) : result sync_state :=
  match faces with
  | [] => Ok st
  | sf_face :: rest =>
      face_info <- fetchTokenInfo sf_face ;;
      st1 <- match_or_create set_code st face_info ;;
      sync_faces set_code st1 rest
  end.

(** The body of the loop of line 292. *)
Definition sync_token (set_code : str) (st : sync_state)
    (sf : sf_token) : result sync_state :=
  lay <- subscript (layout sf) "layout" ;;
  if str_eqb lay (lit "double_faced_token") then
    let st1 := {| xml_root := xml_root st;
                  cards := cards st;
                  new_token_count := new_token_count st;
                  double_faced_count := S (double_faced_count st);
                  reprint_count := reprint_count st |} in
    faces <- subscript (card_faces sf) "card_faces" ;;
    sync_faces set_code st1 faces
  else
    info <- fetchTokenInfo (entry sf) ;;
    match_or_create set_code st info.

Fixpoint sync_tokens (set_code : str) (st : sync_state)
    (token_set : list sf_token) : result sync_state :=
  match token_set with
  | [] => Ok st
  | sf :: rest =>
      st1 <- sync_token set_code st sf ;;
      sync_tokens set_code st1 rest
  end.

(** Lines 281-324 of [updateTokenXML], on the token set that
    [pullScryfallAPI] returned and the root of the parsed catalog. *)
Definition updateTokenXML (set_code : str) (xml_root0 : element)
    (token_set : list sf_token) : result sync_state :=
  sync_tokens set_code
    {| xml_root := xml_root0;
       cards := [];
       new_token_count := 0;
       double_faced_count := 0;
       reprint_count := 0 |}
    token_set.

End Sync.

(** ** The words of the specification *)

(** A sub-element that is missing reads as the empty string. *)
Definition or_empty (o : option str) : str :=
  match o with
  | Some s => s
  | None => []
  end.

(** The match condition of the Catalog Matcher, clause by clause. *)
Definition name_prefixed (xml_card : element) (info : token_info) : Prop :=
  exists nm suffix,
    findtext xml_card (lit "name") = Some nm /\ nm = token_name info ++ suffix.

Definition same_text (xml_card : element) (info : token_info) : Prop :=
  or_empty (findtext xml_card (lit "text")) = token_text info.

Definition same_type (xml_card : element) (info : token_info) : Prop :=
  exists ty,
    find_path xml_card (lit "prop") (lit "type") = Some ty
    /\ text ty = Some (token_type info).

Definition same_colors (xml_card : element) (info : token_info) : Prop :=
  sorted (chars (or_empty (findtext_path xml_card (lit "prop") (lit "colors"))))
  = token_colors info.

Definition same_pt (xml_card : element) (info : token_info) : Prop :=
  or_empty (findtext_path xml_card (lit "prop") (lit "pt")) = token_pt info.

(** The entry matches: the condition of line 145 evaluates to [True]. *)
Definition is_match (xml_card : element) (info : token_info) : bool :=
  match card_matches xml_card info with
  | Ok true => true
  | _ => false
  end.

(** The condition of line 145 evaluates on the entry: no exception. *)
Definition evaluates (xml_card : element) (info : token_info) : Prop :=
  exists b, card_matches xml_card info = Ok b.

(** [c'] is [c] with [new] inserted as its child of index [i], and every
    other child, the tag, the attributes and the text as they were. *)
Definition inserted_at (i : nat) (new c c' : element) : Prop :=
  tag c' = tag c /\ attrib c' = attrib c /\ text c' = text c
  /\ i <= List.length (children c)
  /\ nth_error (children c') i = Some new
  /\ firstn i (children c') = firstn i (children c)
  /\ skipn (S i) (children c') = skipn i (children c).

(** The catalog after a call of [xmlMatch] that returns: every matching
    entry has its new [set] line, nothing else has changed. *)
Definition amend_card (upper : str -> str) (info : token_info)
    (set_code : str) (c : element) : element :=
  if is_match c info then add_set_line upper c info set_code else c.

Definition amend_child (upper : str -> str) (info : token_info)
    (set_code : str) (c : element) : element :=
  if has_tag (lit "cards") c
  then Element (tag c) (attrib c) (text c)
               (map (amend_card upper info set_code) (children c))
  else c.

Definition amend_root (upper : str -> str) (info : token_info)
    (set_code : str) (r : element) : element :=
  Element (tag r) (attrib r) (text r)
          (map (amend_child upper info set_code) (children r)).

(** What a call of [xmlMatch] may do to an entry, and to a child of the
    root. *)
Definition entry_frame (upper : str -> str) (info : token_info)
    (set_code : str) (c c' : element) : Prop :=
  if is_match c info
  then inserted_at (if iselement (find c (lit "text")) then 3 else 2)
                   (set_line upper info set_code) c c'
  else c' = c.

Definition child_frame (upper : str -> str) (info : token_info)
    (set_code : str) (c c' : element) : Prop :=
  if has_tag (lit "cards") c
  then tag c' = tag c /\ attrib c' = attrib c /\ text c' = text c
       /\ Forall2 (entry_frame upper info set_code) (children c) (children c')
  else c' = c.

(** The large image reference of a record, when it has one. *)
Definition large_image (sf : sf_entry) : option str :=
  match image_uris sf with
  | Some (Some uri) => Some uri
  | _ => None
  end.

(** The records that the loop of [updateTokenXML] normalizes for a token:
    its faces when it is double-faced, the token itself otherwise. *)
Definition normalized_of (sf : sf_token) : list sf_entry :=
  match layout sf with
  | Some lay =>
      if str_eqb lay (lit "double_faced_token")
      then match card_faces sf with
           | Some faces => faces
           | None => []
           end
      else [entry sf]
  | None => [entry sf]
  end.

(** What [xmlMatch] reads of an entry: its children other than [set]
    lines. *)
Definition nonset (c : element) : list element :=
  filter (fun ch => negb (has_tag (lit "set") ch)) (children c).

Definition same_entry (c c' : element) : Prop := nonset c = nonset c'.

Definition same_catalog (r r' : element) : Prop :=
  Forall2 same_entry (findall_cards r) (findall_cards r').

Definition same_counts (st st' : sync_state) : Prop :=
  cards st' = cards st
  /\ new_token_count st' = new_token_count st
  /\ double_faced_count st' = double_faced_count st
  /\ reprint_count st' = reprint_count st.

Definition same_state (st st' : sync_state) : Prop :=
  same_catalog (xml_root st) (xml_root st') /\ same_counts st st'.

(** Classification by the first substring test that succeeds. *)
Fixpoint first_match (tests : list (str * str)) (default ty : str) : str :=
  match tests with
  | [] => default
  | (word, label) :: rest =>
      if contains word ty then label else first_match rest default ty
  end.

Definition maintype_order : list (str * str) :=
  [(lit "Emblem", lit "Emblem");
   (lit "Dungeon", lit "Dungeon");
   (lit "Creature", lit "Creature");
   (lit "Artifact", lit "Artifact");
   (lit "Enchantment", lit "Enchantment")].

(** The text after the last occurrence of the separator. *)
Definition after_last (sep ty : str) : option str :=
  option_map (fun i => skipn (i + List.length sep) ty) (rfind_sub sep ty).

(** The text between the first occurrence of the separator and the next one
    after it, up to the end when there is no next one. *)
Definition after_first (sep ty : str) : option str :=
  match find_sub sep ty with
  | None => None
  | Some i =>
      let rest := skipn (i + List.length sep) ty in
      Some (match find_sub sep rest with
            | None => rest
            | Some j => firstn j rest
            end)
  end.

(** The number of records a token set normalizes: one per face of a
    double-faced token, one for any other token. *)
Definition set_size (token_set : list sf_token) : nat :=
  list_sum
    (map (fun sf =>
            match layout sf, card_faces sf with
            | Some lay, Some faces =>
                if str_eqb lay (lit "double_faced_token")
                then List.length faces else 1
            | _, _ => 1
            end) token_set).

(** An entry that [xmlMatch] can compare: it has a [name] child and a
    [prop/type] element. *)
Definition comparable (xml_card : element) : Prop :=
  find xml_card (lit "name") <> None
  /\ find_path xml_card (lit "prop") (lit "type") <> None.

(** A record that gets past the name and text tests of any entry with a
    [name]: the empty name, and the entry's own text. *)
Definition probe (c : element) : token_info :=
  {| token_name := [];
     token_text := or_empty (findtext c (lit "text"));
     token_type := [];
     token_colors := [];
     token_pt := [];
     token_image := [] |}.

(** ** Example data *)

(** A red 1/1 Goblin entry of the catalog under the given name, and the
    normalized record of the same token under a given name. *)
Definition goblin_entry (nm : string) : element :=
  Element (lit "card") [] None
    [leaf "name" (lit nm);
     Element (lit "prop") [] None
       [leaf "colors" (lit "R");
        leaf "type" (lit "Token Creature");
        leaf "maintype" (lit "Creature");
        leaf "cmc" (lit "0");
        leaf "pt" (lit "1/1")];
     Element (lit "set") [(lit "picURL", lit "https://x/old.png")]
       (Some (lit "M19")) [];
     leaf "token" (lit "1");
     leaf "tablerow" (lit "2")].

Definition goblin_info (nm : string) : token_info :=
  {| token_name := lit nm;
     token_text := [];
     token_type := lit "Token Creature";
     token_colors := [lit "R"];
     token_pt := lit "1/1";
     token_image := lit "https://x/img.png" |}.

(** A record with the given name and type line and nothing else of note. *)
Definition plain_info (nm ty : str) : token_info :=
  {| token_name := nm;
     token_text := [];
     token_type := ty;
     token_colors := [];
     token_pt := [];
     token_image := lit "https://x/img.png" |}.

(** A Scryfall record with every field that [fetchTokenInfo] reads, and the
    same record without its rules text. *)
Definition spirit_card : sf_entry :=
  {| name := Some (lit "Spirit");
     oracle_text := Some (lit "Flying");
     type_line := Some (lit "Token Creature");
     colors := Some [lit "W"];
     power := Some (lit "1");
     toughness := Some (lit "1");
     image_uris := Some (Some (lit "https://x/spirit.png")) |}.

Definition spirit_card_no_text : sf_entry :=
  {| name := Some (lit "Spirit");
     oracle_text := None;
     type_line := Some (lit "Token Creature");
     colors := Some [lit "W"];
     power := Some (lit "1");
     toughness := Some (lit "1");
     image_uris := Some (Some (lit "https://x/spirit.png")) |}.

(** Type lines with one and with two separators. *)
Definition spirit_type : str :=
  lit "Token Creature" ++ SUBTYPE_SEP ++ lit "Spirit".

Definition spirit_warrior_type : str :=
  lit "Token Creature" ++ SUBTYPE_SEP ++ lit "Spirit Warrior".

Definition two_separator_type : str :=
  lit "Token Creature" ++ SUBTYPE_SEP ++ lit "Spirit"
  ++ SUBTYPE_SEP ++ lit "Warrior".

(** Catalogs of one entry: a Goblin without its [prop/type], and one
    without its [name]. *)
Definition catalog_of (entries : list element) : element :=
  Element (lit "cockatrice_carddatabase") [] None
    [Element (lit "cards") [] None entries].

Definition entry_no_type : element :=
  Element (lit "card") [] None
    [leaf "name" (lit "Goblin");
     Element (lit "prop") [] None [leaf "colors" (lit "R")];
     leaf "token" (lit "1")].

Definition entry_no_name : element :=
  Element (lit "card") [] None
    [Element (lit "prop") [] None [leaf "type" (lit "Token Creature")];
     leaf "token" (lit "1")].

(** An entry with a [name] and a [prop/type] and none of the optional
    sub-elements. *)
Definition entry_bare : element :=
  Element (lit "card") [] None
    [leaf "name" (lit "Goblin");
     Element (lit "prop") [] None [leaf "type" (lit "Token Creature")]].

(** Tokens of an upstream set: a Spirit, the same without its image
    dict, and a Goblin that is the record [goblin_info "Goblin"]. *)
Definition single (sf : sf_entry) : sf_token :=
  {| entry := sf; layout := Some (lit "token"); card_faces := None |}.

Definition spirit_card_no_image : sf_entry :=
  {| name := Some (lit "Spirit");
     oracle_text := Some (lit "Flying");
     type_line := Some (lit "Token Creature");
     colors := Some [lit "W"];
     power := Some (lit "1");
     toughness := Some (lit "1");
     image_uris := None |}.

Definition goblin_card : sf_entry :=
  {| name := Some (lit "Goblin");
     oracle_text := Some [];
     type_line := Some (lit "Token Creature");
     colors := Some [lit "R"];
     power := Some (lit "1");
     toughness := Some (lit "1");
     image_uris := Some (Some (lit "https://x/img.png")) |}.

(** The separator as the comment of line 218 means it: a space, U+2014
    (the em dash), a space. *)
Definition EM_DASH_SEP : str := [32; 8212; 32]%N.

(** The Spirit type line written with U+2014, the em dash itself. *)
Definition em_dash_spirit_type : str :=
  lit "Token Creature" ++ [32; 8212; 32]%N ++ lit "Spirit".

(** Catalogs and token sets for running the loop. *)
Definition goblin_catalog : element :=
  catalog_of [goblin_entry "Goblin A"; goblin_entry "Goblin"; entry_bare].

Definition empty_catalog : element := catalog_of [].

Definition abc : str := lit "abc".

(** ** More example data *)

(** A white and blue Bird, with its colors in either order. *)
Definition bird_card (cs : list str) : sf_entry :=
  {| name := Some (lit "Bird");
     oracle_text := Some (lit "Flying");
     type_line := Some (lit "Token Creature");
     colors := Some cs;
     power := Some (lit "1");
     toughness := Some (lit "1");
     image_uris := Some (Some (lit "https://x/bird.png")) |}.

(** A Treasure: an artifact, without power and toughness. *)
Definition treasure_card : sf_entry :=
  {| name := Some (lit "Treasure");
     oracle_text := Some (lit "Sacrifice this artifact: Add one mana.");
     type_line := Some (lit "Token Artifact");
     colors := Some [];
     power := None;
     toughness := None;
     image_uris := Some (Some (lit "https://x/treasure.png")) |}.

(** ** More words for the matcher *)

(** The child index at which [xmlMatch] inserts the new [set] line. *)
Definition set_index (xml_card : element) : nat :=
  if iselement (find xml_card (lit "text")) then 3 else 2.

(** The condition of line 145 raises on the entry: there is no [name]
    child, or the name and text tests pass and there is no [prop/type]. *)
Definition raises_on (xml_card : element) (info : token_info) : bool :=
  match findtext xml_card (lit "name") with
  | None => true
  | Some nm =>
      startswith nm (token_name info)
      && str_eqb (or_empty (findtext xml_card (lit "text"))) (token_text info)
      && negb (iselement (find_path xml_card (lit "prop") (lit "type")))
  end.

(** The record under another name. *)
Definition with_name (info : token_info) (nm : str) : token_info :=
  {| token_name := nm;
     token_text := token_text info;
     token_type := token_type info;
     token_colors := token_colors info;
     token_pt := token_pt info;
     token_image := token_image info |}.

(** The number of [set] lines in the entries of a catalog. *)
Definition set_line_count (c : element) : nat :=
  List.length (filter (has_tag (lit "set")) (children c)).

Definition set_lines (root : element) : nat :=
  list_sum (map set_line_count (findall_cards root)).

(** A white and blue Bird entry with its colors written as given. *)
Definition bird_entry (cs : string) : element :=
  Element (lit "card") [] None
    [leaf "name" (lit "Bird");
     leaf "text" (lit "Flying");
     Element (lit "prop") [] None
       [leaf "colors" (lit cs);
        leaf "type" (lit "Token Creature");
        leaf "pt" (lit "1/1")];
     leaf "token" (lit "1")].

Definition bird_info : token_info :=
  {| token_name := lit "Bird";
     token_text := lit "Flying";
     token_type := lit "Token Creature";
     token_colors := [lit "U"; lit "W"];
     token_pt := lit "1/1";
     token_image := lit "https://x/bird.png" |}.

(** ** More words for the loop of updateTokenXML *)

(** The token has the keys that the loop reads before it normalizes:
    [layout], and [card_faces] when it is double-faced. *)
Definition is_double_faced (sf : sf_token) : bool :=
  match layout sf with
  | Some lay => str_eqb lay (lit "double_faced_token")
  | None => false
  end.

Definition token_ok (sf : sf_token) : Prop :=
  layout sf <> None
  /\ (is_double_faced sf = true -> card_faces sf <> None).

(** The entries of a catalog that match a record, and whether there is
    none. *)
Definition matches_of (root : element) (info : token_info) : nat :=
  List.length (filter (fun c => is_match c info) (findall_cards root)).

Definition unmatched (root : element) (info : token_info) : bool :=
  negb (existsb (fun c => is_match c info) (findall_cards root)).

Definition evaluates_all (root : element) (info : token_info) : Prop :=
  Forall (fun c => evaluates c info) (findall_cards root).

(** State [st1] comes from state [st] by matching the records [infos], in
    their order, against the catalog [root], [k] double-faced tokens having
    been met. *)
Definition tallied (upper : str -> str) (set_code : str) (root : element)
    (st : sync_state) (infos : list token_info) (k : nat)
    (st1 : sync_state) : Prop :=
  same_catalog root (xml_root st1)
  /\ Forall (evaluates_all root) infos
  /\ reprint_count st1
     = reprint_count st + list_sum (map (matches_of root) infos)
  /\ cards st1
     = cards st
       ++ map (fun info => createXmlEntry upper info set_code)
              (filter (unmatched root) infos)
  /\ new_token_count st1
     = new_token_count st + List.length (filter (unmatched root) infos)
  /\ double_faced_count st1 = double_faced_count st + k.

(** A double-faced token with the given faces. *)
Definition double_faced (faces : list sf_entry) : sf_token :=
  {| entry := {| name := Some (lit "Front // Back");
                 oracle_text := None;
                 type_line := None;
                 colors := None;
                 power := None;
                 toughness := None;
                 image_uris := None |};
     layout := Some (lit "double_faced_token");
     card_faces := Some faces |}.

(** What the loop of [updateTokenXML] does to catalog and reprint counter
    between two of its states: the counter does not go down, the catalog
    has gained as many [set] lines as the counter has gained, and is the
    same catalog when the counter is the same. *)
Definition grown (st st1 : sync_state) : Prop :=
  reprint_count st <= reprint_count st1
  /\ set_lines (xml_root st1)
     = set_lines (xml_root st) + (reprint_count st1 - reprint_count st)
  /\ (reprint_count st1 = reprint_count st -> xml_root st1 = xml_root st).

(** ** pullScryfallAPI *)

(** The dict that [requests.get(download_url).json()] returns, with the keys
    that the loop reads.  [has_more] is read with [get] and tested for truth:
    only [Some true] is true. *)
Record page_json := {
  object : option str;
  data : option (list sf_token);
  has_more : option bool;
  next_page : option str
}.

Section Pull.

(** [requests.get(download_url).json()] for the request number [page], the
    counter of the loop, at the given URL.  The request itself, the pause
    between requests and the message printed on an error page are not
    modelled: a request that fails and a body that is not a JSON dict have
    no counterpart. *)
Variable get_json : nat -> str -> page_json.

(** The [while] loop of lines 50-67.  It need not end: [fuel] bounds the
    number of requests, and [None] says that the bound was reached. *)
Fixpoint pull_pages (fuel page : nat) (download_url : str)
    (token_list : list sf_token) : option (result (list sf_token)) :=
  match download_url with
  | [] => Some (Ok token_list)
  | _ :: _ =>
      match fuel with
      | O => None
      | S fuel' =>
          let cards := get_json page download_url in
          match object cards with
          | None => Some (Raise (KeyError (lit "object")))
          | Some obj =>
              if str_eqb obj (lit "error") then Some (Ok token_list)
              else
                match data cards with
                | None => Some (Raise (KeyError (lit "data")))
                | Some cs =>
                    let token_list1 := token_list ++ cs in
                    match has_more cards with
                    | Some true =>
                        match next_page cards with
                        | None => Some (Raise (KeyError (lit "next_page")))
                        | Some url => pull_pages fuel' (S page) url token_list1
                        end
                    | _ => Some (Ok token_list1)
                    end
                end
          end
      end
  end.

Definition pullScryfallAPI (fuel : nat) (download_url : str)
  : option (result (list sf_token)) :=
  pull_pages fuel 1 download_url [].

(** The tokens that the pages from request [page] at [url] on give: none
    for no URL or an error page, the data of a last page, the data of a page
    with more to come followed by what the next page gives. *)
Inductive collects : nat -> str -> list sf_token -> Prop :=
| collects_stop (page : nat) : collects page [] []
| collects_error (page : nat) (url : str) :
    url <> [] ->
    object (get_json page url) = Some (lit "error") ->
    collects page url []
| collects_last (page : nat) (url obj : str) (cs : list sf_token) :
    url <> [] ->
    object (get_json page url) = Some obj -> obj <> lit "error" ->
    data (get_json page url) = Some cs ->
    has_more (get_json page url) <> Some true ->
    collects page url cs
| collects_more (page : nat) (url obj next : str) (cs rest : list sf_token) :
    url <> [] ->
    object (get_json page url) = Some obj -> obj <> lit "error" ->
    data (get_json page url) = Some cs ->
    has_more (get_json page url) = Some true ->
    next_page (get_json page url) = Some next ->
    collects (S page) next rest ->
    collects page url (cs ++ rest).

End Pull.

(** Pages for running the loop: two pages of a search and an error page,
    and a server that answers every request with a page that points to
    itself. *)
Definition list_page (cs : list sf_token) (next : option str) : page_json :=
  {| object := Some (lit "list");
     data := Some cs;
     has_more := match next with Some _ => Some true | None => Some false end;
     next_page := next |}.

Definition error_page : page_json :=
  {| object := Some (lit "error");
     data := None;
     has_more := None;
     next_page := None |}.

Definition two_pages (page : nat) (url : str) : page_json :=
  if str_eqb url (lit "p1")
  then list_page [single goblin_card] (Some (lit "p2"))
  else if str_eqb url (lit "p2")
       then list_page [single spirit_card] None
       else error_page.

Definition page_then_error (page : nat) (url : str) : page_json :=
  if str_eqb url (lit "p1")
  then list_page [single goblin_card] (Some (lit "p2"))
  else error_page.

Definition same_page_again (page : nat) (url : str) : page_json :=
  list_page [single goblin_card] (Some url).

(** A server whose answers have no [object] key. *)
Definition no_object (page : nat) (url : str) : page_json :=
  {| object := None;
     data := Some [single goblin_card];
     has_more := Some false;
     next_page := None |}.

(** A record that matches no entry of [goblin_catalog]. *)
Definition spirit_info : token_info :=
  plain_info (lit "Spirit") (lit "Token Creature").

(** A record whose name is longer than the name of every entry of the
    catalog, so that no entry's name starts with it. *)
Definition longest_name (root : element) : nat :=
  list_max (map (fun c => List.length (or_empty (findtext c (lit "name"))))
                (findall_cards root)).

Definition outsider (root : element) : token_info :=
  plain_info (repeat 120%N (S (longest_name root))) (lit "Token").

(** ** Strings *)

Lemma str_eqb_eq (a b : str) : str_eqb a b = true <-> a = b.
Proof.
  revert b; induction a as [|c a IH]; intros [|d b]; simpl; split;
    try congruence; try reflexivity.
  - intros H. apply andb_true_iff in H as [Hc Hr].
    apply N.eqb_eq in Hc. apply IH in Hr. congruence.
  - intros H. injection H as -> ->.
    rewrite N.eqb_refl. simpl. now apply IH.
Qed.

Lemma str_eqb_refl (a : str) : str_eqb a a = true.
Proof. now apply str_eqb_eq. Qed.

Lemma str_eqb_neq (a b : str) : str_eqb a b = false <-> a <> b.
Proof.
  split.
  - intros H E. apply str_eqb_eq in E. congruence.
  - intros H. destruct (str_eqb a b) eqn:E; [|reflexivity].
    apply str_eqb_eq in E. contradiction.
Qed.

Lemma strs_eqb_eq (a b : list str) : strs_eqb a b = true <-> a = b.
Proof.
  revert b; induction a as [|x a IH]; intros [|y b]; simpl; split;
    try congruence; try reflexivity.
  - intros H. apply andb_true_iff in H as [Hx Hr].
    apply str_eqb_eq in Hx. apply IH in Hr. congruence.
  - intros H. injection H as -> ->.
    rewrite str_eqb_refl. simpl. now apply IH.
Qed.

Lemma startswith_prefix (s p : str) :
  startswith s p = true <-> exists r, s = p ++ r.
Proof.
  revert s; induction p as [|c p IH]; intros s; simpl.
  - split; [intros _; now exists s | intros _; now destruct s].
  - destruct s as [|d s].
    + split; [discriminate | intros [r H]; discriminate].
    + split.
      * intros H. apply andb_true_iff in H as [Hc Hr].
        apply N.eqb_eq in Hc. apply IH in Hr as [r ->].
        exists r. now subst.
      * intros [r H]. injection H as -> ->. simpl.
        rewrite N.eqb_refl. simpl. apply IH. now exists r.
Qed.

Lemma startswith_length (s p : str) :
  startswith s p = true -> List.length p <= List.length s.
Proof.
  intros H. apply startswith_prefix in H as [r ->].
  rewrite length_app. lia.
Qed.

Lemma in_list_In (x : str) (l : list str) : in_list x l = true <-> In x l.
Proof.
  unfold in_list. rewrite existsb_exists. split.
  - intros [y [Hy E]]. apply str_eqb_eq in E. now subst.
  - intros H. exists x. split; [assumption | apply str_eqb_refl].
Qed.

(** ** sorted *)

Lemma str_leb_total (a b : str) : str_leb a b = false -> str_leb b a = true.
Proof.
  revert b; induction a as [|c a IH]; intros [|d b]; simpl; try congruence.
  rewrite (N.compare_antisym c d).
  destruct (N.compare c d); simpl; try congruence. apply IH.
Qed.

Lemma insert_sorted_perm (x : str) (l : list str) :
  Permutation (insert_sorted x l) (x :: l).
Proof.
  induction l as [|y l IH]; simpl; [reflexivity|].
  destruct (str_leb x y); [reflexivity|].
  rewrite IH. apply perm_swap.
Qed.

Lemma insert_sorted_sorted (x : str) (l : list str) :
  Sorted str_le l -> Sorted str_le (insert_sorted x l).
Proof.
  induction 1 as [|y l Hl IH Hy]; simpl.
  - repeat constructor.
  - destruct (str_leb x y) eqn:E.
    + repeat constructor; assumption.
    + constructor; [exact IH|].
      destruct l as [|z l]; simpl.
      * constructor. now apply str_leb_total.
      * destruct (str_leb x z); constructor.
        -- now apply str_leb_total.
        -- now inversion Hy.
Qed.

(** [sorted l] is [l] put in order. *)
Lemma sorted_spec (l : list str) :
  Permutation (sorted l) l /\ Sorted str_le (sorted l).
Proof.
  induction l as [|x l [IHp IHs]]; simpl.
  - split; constructor.
  - split.
    + rewrite insert_sorted_perm. now constructor.
    + now apply insert_sorted_sorted.
Qed.

(** ** The match condition *)

(** The condition of line 145 with the guarded lookups read through
    [findtext]. *)
Lemma card_matches_unfold (xml_card : element) (info : token_info) :
  card_matches xml_card info =
  match findtext xml_card (lit "name") with
  | None => Raise AttributeError
  | Some nm =>
      if negb (startswith nm (token_name info)) then Ok false
      else if negb (str_eqb (or_empty (findtext xml_card (lit "text")))
                            (token_text info)) then Ok false
      else
        match find_path xml_card (lit "prop") (lit "type") with
        | None => Raise AttributeError
        | Some ty =>
            if negb (match text ty with
                     | Some t => str_eqb t (token_type info)
                     | None => false
                     end) then Ok false
            else if negb (strs_eqb
                            (sorted (chars (or_empty
                               (findtext_path xml_card (lit "prop") (lit "colors")))))
                            (token_colors info)) then Ok false
            else Ok (str_eqb (or_empty (findtext_path xml_card (lit "prop") (lit "pt")))
                             (token_pt info))
        end
  end.
Proof.
  unfold card_matches, findtext, findtext_path.
  destruct (find xml_card (lit "text"));
    destruct (find_path xml_card (lit "prop") (lit "colors"));
    destruct (find_path xml_card (lit "prop") (lit "pt"));
    reflexivity.
Qed.

Lemma card_matches_spec (xml_card : element) (info : token_info) :
  card_matches xml_card info = Ok true <->
  name_prefixed xml_card info
  /\ same_text xml_card info
  /\ same_type xml_card info
  /\ same_colors xml_card info
  /\ same_pt xml_card info.
Proof.
  rewrite card_matches_unfold.
  unfold name_prefixed, same_text, same_type, same_colors, same_pt.
  destruct (findtext xml_card (lit "name")) as [nm|].
  2:{ split; [discriminate|]. intros [[nm [sfx [H _]]] _]. discriminate. }
  destruct (startswith nm (token_name info)) eqn:Hpre; simpl.
  2:{ split; [discriminate|]. intros [[nm' [sfx [H E]]] _].
      injection H as <-.
      assert (startswith nm (token_name info) = true)
        by (apply startswith_prefix; now exists sfx).
      congruence. }
  apply startswith_prefix in Hpre as [sfx Hsfx].
  destruct (str_eqb _ (token_text info)) eqn:Htx; simpl.
  2:{ apply str_eqb_neq in Htx.
      split; [discriminate | intros [_ [H _]]; contradiction]. }
  apply str_eqb_eq in Htx.
  destruct (find_path xml_card (lit "prop") (lit "type")) as [ty_el|].
  2:{ split; [discriminate | intros [_ [_ [[ty [H _]] _]]]; discriminate]. }
  destruct (text ty_el) as [ty|] eqn:Hty; simpl.
  2:{ split; [discriminate|].
      intros [_ [_ [[ty' [H H']] _]]]. injection H as <-. congruence. }
  destruct (str_eqb ty (token_type info)) eqn:Hteq; simpl.
  2:{ apply str_eqb_neq in Hteq. split; [discriminate|].
      intros [_ [_ [[ty' [H H']] _]]]. injection H as <-. congruence. }
  apply str_eqb_eq in Hteq.
  destruct (strs_eqb _ (token_colors info)) eqn:Hco; simpl.
  2:{ split; [discriminate|].
      intros [_ [_ [_ [H _]]]]. apply strs_eqb_eq in H. congruence. }
  apply strs_eqb_eq in Hco.
  split.
  - intros H. injection H as H. apply str_eqb_eq in H.
    repeat split; try assumption.
    + now exists nm, sfx.
    + exists ty_el. split; congruence.
  - intros [_ [_ [_ [_ H]]]]. f_equal. now apply str_eqb_eq.
Qed.

Lemma fetchTokenInfo_inv (sf : sf_entry) (info : token_info) :
  fetchTokenInfo sf = Ok info ->
  exists nm tx ty cs img,
    name sf = Some nm /\ oracle_text sf = Some tx /\ type_line sf = Some ty
    /\ colors sf = Some cs /\ image_uris sf = Some (Some img)
    /\ token_name info = nm /\ token_text info = tx /\ token_type info = ty
    /\ token_colors info = sorted cs /\ token_image info = img.
Proof.
  unfold fetchTokenInfo.
  destruct (name sf) as [nm|]; [|discriminate].
  destruct (oracle_text sf) as [tx|]; [|discriminate].
  destruct (type_line sf) as [ty|]; [|discriminate].
  destruct (colors sf) as [cs|]; [|discriminate].
  destruct (image_uris sf) as [[img|]|]; [|discriminate..].
  cbn. intros H. injection H as <-.
  exists nm, tx, ty, cs, img. cbn. repeat split.
Qed.

(** C1: an entry is declared a match exactly when its name starts with the
    record's name, its text (empty when there is no [text] child) is the
    record's text, the text of its [prop/type] is the record's type, its
    colors, sorted (none when there is no [prop/colors]), are the record's
    colors, which [fetchTokenInfo] has sorted, and its power/toughness (empty
    when there is no [prop/pt]) is the record's.  The prefix test is
    asymmetric: the entry "Goblin A" matches the record "Goblin", the entry
    "Goblin" does not match the record "Goblin A". *)
Theorem card_matches_iff :
  (forall (xml_card : element) (info : token_info),
      card_matches xml_card info = Ok true <->
      name_prefixed xml_card info
      /\ same_text xml_card info
      /\ same_type xml_card info
      /\ same_colors xml_card info
      /\ same_pt xml_card info)
  /\ (forall (sf : sf_entry) (info : token_info),
        fetchTokenInfo sf = Ok info ->
        exists cs, colors sf = Some cs /\ token_colors info = sorted cs)
  /\ card_matches (goblin_entry "Goblin A") (goblin_info "Goblin") = Ok true
  /\ card_matches (goblin_entry "Goblin") (goblin_info "Goblin A") = Ok false.
Proof.
  split; [exact card_matches_spec | split; [|split; reflexivity]].
  intros sf info H.
  destruct (fetchTokenInfo_inv _ H)
    as [nm [tx [ty [cs [img [_ [_ [_ [Hc [_ [_ [_ [_ [Hs _]]]]]]]]]]]]]].
  now exists cs.
Qed.

Lemma card_matches_iff_witness :
  (card_matches (goblin_entry "Goblin A") (goblin_info "Goblin") = Ok true)
  /\ exists cs, colors goblin_card = Some cs
                /\ token_colors (goblin_info "Goblin") = sorted cs.
Proof.
  destruct card_matches_iff as [Hiff [Hsorted _]]. split.
  - apply Hiff. unfold name_prefixed, same_text, same_type, same_colors, same_pt.
    repeat split.
    + exists (lit "Goblin A"), (lit " A"). split; reflexivity.
    + exists (leaf "type" (lit "Token Creature")). split; reflexivity.
  - apply (Hsorted goblin_card). reflexivity.
Defined.

(** ** fetchTokenInfo *)

Lemma fetchTokenInfo_ok (sf : sf_entry) (nm tx ty : str) (cs : list str)
    (img : str) :
  name sf = Some nm -> oracle_text sf = Some tx -> type_line sf = Some ty ->
  colors sf = Some cs -> image_uris sf = Some (Some img) ->
  exists pt,
    fetchTokenInfo sf =
    Ok {| token_name := nm; token_text := tx; token_type := ty;
          token_colors := sorted cs; token_pt := pt; token_image := img |}.
Proof.
  intros Hn Ht Hy Hc Hi. unfold fetchTokenInfo.
  rewrite Hn, Ht, Hy, Hc, Hi. simpl. eexists. reflexivity.
Qed.

(** C4, as the code has it: the rules text is copied when the field is there
    and the other fields that are read are there too; without the field
    [fetchTokenInfo] raises [KeyError]. *)
Theorem fetchTokenInfo_text (sf : sf_entry) :
  (forall nm tx ty cs img,
      name sf = Some nm -> oracle_text sf = Some tx ->
      type_line sf = Some ty -> colors sf = Some cs ->
      image_uris sf = Some (Some img) ->
      exists info, fetchTokenInfo sf = Ok info /\ token_text info = tx)
  /\ (oracle_text sf = None ->
      fetchTokenInfo sf =
      Raise (KeyError (lit (match name sf with
                            | Some _ => "oracle_text"
                            | None => "name"
                            end)))).
Proof.
  split.
  - intros nm tx ty cs img Hn Ht Hy Hc Hi.
    destruct (fetchTokenInfo_ok sf Hn Ht Hy Hc Hi) as [pt H].
    eexists. split; [exact H | reflexivity].
  - intros Ht. unfold fetchTokenInfo. rewrite Ht.
    destruct (name sf); reflexivity.
Qed.

Lemma fetchTokenInfo_text_witness :
  (exists info, fetchTokenInfo spirit_card = Ok info
                /\ token_text info = lit "Flying")
  /\ fetchTokenInfo spirit_card_no_text = Raise (KeyError (lit "oracle_text")).
Proof.
  split.
  - apply (proj1 (fetchTokenInfo_text spirit_card)) with
      (nm := lit "Spirit") (ty := lit "Token Creature") (cs := [lit "W"])
      (img := lit "https://x/spirit.png"); reflexivity.
  - apply (proj2 (fetchTokenInfo_text spirit_card_no_text)). reflexivity.
Defined.

(** C4 fails as stated: a record that has everything but the rules text is
    not normalized to a record with empty text. *)
Lemma fetchTokenInfo_no_text_raises :
  oracle_text spirit_card_no_text = None
  /\ ~ (exists info, fetchTokenInfo spirit_card_no_text = Ok info
                     /\ token_text info = []).
Proof.
  split; [reflexivity|]. intros [info [H _]]. discriminate.
Qed.

(** ** split, find and rfind *)

Lemma split_go_skip (sep : str) (k : nat) (cur s : str) :
  split_go sep k cur s = split_go sep 0 cur (skipn k s).
Proof.
  revert k; induction s as [|c s IH]; intros k.
  - now destruct k.
  - destruct k as [|k]; [reflexivity|]. simpl. apply IH.
Qed.

Lemma startswith_nil (sep : str) : sep <> [] -> startswith [] sep = false.
Proof. destruct sep; [congruence | reflexivity]. Qed.

(** [split] cuts at the first occurrence and goes on after it. *)
Lemma split_go_find (sep : str) (cur s : str) :
  sep <> [] ->
  split_go sep 0 cur s =
  match find_sub sep s with
  | None => [rev cur ++ s]
  | Some i =>
      (rev cur ++ firstn i s)
        :: split_go sep 0 [] (skipn (i + List.length sep) s)
  end.
Proof.
  intros Hsep. revert cur; induction s as [|c s IH]; intros cur.
  - cbn [split_go find_sub]. rewrite (startswith_nil Hsep). now rewrite app_nil_r.
  - cbn [split_go find_sub].
    destruct (startswith (c :: s) sep) eqn:Hs.
    + rewrite split_go_skip. rewrite app_nil_r.
      destruct sep as [|d sep]; [congruence|].
      simpl. now rewrite Nat.sub_0_r.
    + rewrite IH. destruct (find_sub sep s) as [i|]; simpl.
      * now rewrite <- app_assoc.
      * now rewrite <- app_assoc.
Qed.

Lemma split_second (sep s : str) :
  sep <> [] -> nth_error (split sep s) 1 = after_first sep s.
Proof.
  intros Hsep. unfold split, after_first.
  rewrite (split_go_find [] s Hsep).
  destruct (find_sub sep s) as [i|]; [|reflexivity].
  rewrite (split_go_find [] _ Hsep).
  now destruct (find_sub sep (skipn (i + List.length sep) s)).
Qed.

Lemma find_sub_none (p s : str) :
  find_sub p s = None <-> contains p s = false.
Proof.
  induction s as [|c s IH]; cbn [find_sub contains].
  - destruct (startswith [] p); simpl; split; congruence.
  - destruct (startswith (c :: s) p); simpl; [split; congruence|].
    rewrite <- IH. destruct (find_sub p s); simpl; split; congruence.
Qed.

Lemma find_sub_some (p s : str) (i : nat) :
  find_sub p s = Some i -> startswith (skipn i s) p = true /\ i <= List.length s.
Proof.
  revert i; induction s as [|c s IH]; intros i; cbn [find_sub].
  - destruct (startswith [] p) eqn:E; [|discriminate].
    intros H. injection H as <-. now split.
  - destruct (startswith (c :: s) p) eqn:E.
    + intros H. injection H as <-. split; [assumption | simpl; lia].
    + destruct (find_sub p s) as [j|]; [|discriminate].
      simpl. intros H. injection H as <-.
      destruct (IH j eq_refl). split; [assumption | lia].
Qed.

(** An occurrence at [k] puts the last occurrence at [k] or later. *)
Lemma rfind_sub_ge (p s : str) (k : nat) :
  k <= List.length s -> startswith (skipn k s) p = true ->
  exists i, rfind_sub p s = Some i /\ k <= i.
Proof.
  revert k; induction s as [|c s IH]; intros k Hk H.
  - destruct k; simpl in *; [|lia]. rewrite H. now exists 0.
  - destruct k as [|k].
    + simpl skipn in H. cbn [rfind_sub]. rewrite H.
      destruct (rfind_sub p s) as [i|]; eexists; split;
        try reflexivity; lia.
    + simpl in Hk, H. destruct (IH k) as [i [Hi Hle]]; [lia | assumption |].
      cbn [rfind_sub]. rewrite Hi. exists (S i). split; [reflexivity | lia].
Qed.

(** When the first occurrence is also the last one, the text after the first
    is the text after the last. *)
Lemma after_first_last (sep s : str) (i : nat) :
  sep <> [] -> find_sub sep s = Some i -> rfind_sub sep s = Some i ->
  after_first sep s = after_last sep s.
Proof.
  intros Hsep Hf Hr. unfold after_first, after_last. rewrite Hf, Hr. simpl.
  destruct (find_sub sep (skipn (i + List.length sep) s)) as [j|] eqn:Hj;
    [|reflexivity].
  exfalso. apply find_sub_some in Hj as [Hj Hlen].
  rewrite skipn_skipn in Hj. rewrite length_skipn in Hlen.
  apply find_sub_some in Hf as [_ Hi].
  assert (Hsl : 0 < List.length sep) by (destruct sep; [congruence | simpl; lia]).
  destruct (Nat.le_gt_cases (j + (i + List.length sep)) (List.length s)) as [Hle|Hgt].
  - destruct (rfind_sub_ge sep s Hle Hj) as [i' [Hi' Hle']].
    rewrite Hr in Hi'. injection Hi' as <-. lia.
  - rewrite skipn_all2 in Hj by lia.
    rewrite (startswith_nil Hsep) in Hj. discriminate.
Qed.

Lemma SUBTYPE_SEP_not_nil : SUBTYPE_SEP <> [].
Proof. discriminate. Qed.

(** ** createXmlEntry *)

Lemma maintype_text_first_match (ty : str) :
  maintype_text ty
  = first_match maintype_order (lit "Please edit manually") ty.
Proof. reflexivity. Qed.

Lemma prop_children_maintype (info : token_info) :
  filter (has_tag (lit "maintype")) (prop_children info)
  = [leaf "maintype" (maintype_text (token_type info))].
Proof.
  unfold prop_children.
  destruct (negb (strs_eqb (token_colors info) []));
    destruct (negb (in_list (token_type info) SHORT_TAG_LIST));
    destruct (negb (str_eqb (token_pt info) []));
    reflexivity.
Qed.

Lemma prop_children_cmc (info : token_info) :
  filter (has_tag (lit "cmc")) (prop_children info)
  = if in_list (token_type info) SHORT_TAG_LIST then []
    else [leaf "cmc" (lit "0")].
Proof.
  unfold prop_children.
  destruct (negb (strs_eqb (token_colors info) []));
    destruct (in_list (token_type info) SHORT_TAG_LIST);
    destruct (negb (str_eqb (token_pt info) []));
    reflexivity.
Qed.

Section Synthesizer.

Variable upper : str -> str.

Lemma createXmlEntry_name (info : token_info) (set_code : str) :
  find (createXmlEntry upper info set_code) (lit "name")
  = Some (leaf "name" (name_text info (token_type info))).
Proof. reflexivity. Qed.

Lemma createXmlEntry_prop (info : token_info) (set_code t : str) :
  findall_path (createXmlEntry upper info set_code) (lit "prop") t
  = filter (has_tag t) (prop_children info).
Proof.
  unfold findall_path, createXmlEntry. cbv zeta.
  generalize (prop_children info) as pc. intros pc.
  destruct (negb (str_eqb (token_text info) []));
    destruct (contains (lit "transform") (token_text info)
              || contains (lit "Transform") (token_text info));
    cbn [children app]; cbn; apply app_nil_r.
Qed.

(** C2, as the code has it: the text of [maintype] is given by the first
    substring test that succeeds, in the order Emblem, Dungeon, Creature,
    Artifact, Enchantment, and is the manual-review text when none does.  A
    type line with "Creature" in it is never classified as Artifact, and it
    is classified as Creature when it has neither "Emblem" nor "Dungeon" in
    it, as "Artifact Creature Token" is. *)
Theorem maintype_by_first_match (info : token_info) (set_code : str) :
  findall_path (createXmlEntry upper info set_code) (lit "prop") (lit "maintype")
  = [leaf "maintype"
       (first_match maintype_order (lit "Please edit manually") (token_type info))]
  /\ (contains (lit "Creature") (token_type info) = true ->
      contains (lit "Emblem") (token_type info) = false ->
      contains (lit "Dungeon") (token_type info) = false ->
      maintype_text (token_type info) = lit "Creature")
  /\ (contains (lit "Creature") (token_type info) = true ->
      maintype_text (token_type info) <> lit "Artifact")
  /\ maintype_text (lit "Artifact Creature Token") = lit "Creature".
Proof.
  split; [|split; [|split]].
  - rewrite createXmlEntry_prop, prop_children_maintype.
    now rewrite maintype_text_first_match.
  - intros Hc He Hd. unfold maintype_text. now rewrite He, Hd, Hc.
  - intros Hc. unfold maintype_text.
    destruct (contains (lit "Emblem") (token_type info)); [discriminate|].
    destruct (contains (lit "Dungeon") (token_type info)); [discriminate|].
    rewrite Hc. discriminate.
  - reflexivity.
Qed.

(** The name of the entry, for the separator literal of the source: the
    subtype candidate is the second piece of the type line split at that
    literal, that is the text between its first occurrence and the next
    one; on a line where it occurs once that is the text after the last
    occurrence.  The name gets " Token" appended exactly when the candidate
    is the record's name, and is the record's name when the literal does
    not occur. *)
Theorem name_by_second_piece (info : token_info) (set_code : str) :
  (contains SUBTYPE_SEP (token_type info) = false ->
   find (createXmlEntry upper info set_code) (lit "name")
   = Some (leaf "name" (token_name info)))
  /\ (contains SUBTYPE_SEP (token_type info) = true ->
      exists subtype,
        after_first SUBTYPE_SEP (token_type info) = Some subtype
        /\ (subtype = token_name info ->
            find (createXmlEntry upper info set_code) (lit "name")
            = Some (leaf "name" (token_name info ++ lit " Token")))
        /\ (subtype <> token_name info ->
            find (createXmlEntry upper info set_code) (lit "name")
            = Some (leaf "name" (token_name info))))
  /\ (forall i,
        find_sub SUBTYPE_SEP (token_type info) = Some i ->
        rfind_sub SUBTYPE_SEP (token_type info) = Some i ->
        after_first SUBTYPE_SEP (token_type info)
        = after_last SUBTYPE_SEP (token_type info)).
Proof.
  rewrite createXmlEntry_name. unfold name_text.
  rewrite (split_second _ SUBTYPE_SEP_not_nil).
  split; [|split].
  - intros H. apply find_sub_none in H.
    unfold after_first. now rewrite H.
  - intros H. unfold after_first.
    destruct (find_sub SUBTYPE_SEP (token_type info)) as [i|] eqn:Hi.
    2:{ apply find_sub_none in Hi. congruence. }
    cbv zeta. eexists. split; [reflexivity|]. split.
    + intros E. apply str_eqb_eq in E. now rewrite E.
    + intros E. apply str_eqb_neq in E. now rewrite E.
  - intros i Hf Hr. apply after_first_last with (i := i);
      [exact SUBTYPE_SEP_not_nil | assumption | assumption].
Qed.

(** C6: the entry has a [cmc] element, with text "0", exactly when the type
    line is none of "Emblem", "Dungeon", "Card" and "Token"; the type
    "Token" gives none, the type "Artifact Creature" gives one. *)
Theorem cmc_unless_short_tag (info : token_info) (set_code : str) :
  (find_path (createXmlEntry upper info set_code) (lit "prop") (lit "cmc")
   = Some (leaf "cmc" (lit "0"))
   <-> ~ In (token_type info)
           [lit "Emblem"; lit "Dungeon"; lit "Card"; lit "Token"])
  /\ (findall_path (createXmlEntry upper info set_code) (lit "prop") (lit "cmc")
      = []
      <-> In (token_type info)
             [lit "Emblem"; lit "Dungeon"; lit "Card"; lit "Token"])
  /\ find (createXmlEntry upper info set_code) (lit "cmc") = None
  /\ find_path (createXmlEntry upper (plain_info (token_name info) (lit "Token"))
                               set_code) (lit "prop") (lit "cmc") = None
  /\ find_path (createXmlEntry upper
                  (plain_info (token_name info) (lit "Artifact Creature"))
                  set_code) (lit "prop") (lit "cmc")
     = Some (leaf "cmc" (lit "0")).
Proof.
  unfold find_path. rewrite !createXmlEntry_prop, !prop_children_cmc.
  change [lit "Emblem"; lit "Dungeon"; lit "Card"; lit "Token"]
    with SHORT_TAG_LIST.
  split; [|split; [|split; [|split; reflexivity]]].
  - destruct (in_list (token_type info) SHORT_TAG_LIST) eqn:E; cbn [hd_error].
    + apply in_list_In in E. split; [discriminate | contradiction].
    + split; [|reflexivity]. intros _ H. apply in_list_In in H. congruence.
  - destruct (in_list (token_type info) SHORT_TAG_LIST) eqn:E.
    + apply in_list_In in E. split; [now intros _ | reflexivity].
    + split; [discriminate|]. intros H. apply in_list_In in H. congruence.
  - unfold find, createXmlEntry. cbv zeta.
    destruct (negb (str_eqb (token_text info) []));
      destruct (contains (lit "transform") (token_text info)
                || contains (lit "Transform") (token_text info));
      reflexivity.
Qed.

End Synthesizer.

(** ** xmlMatch *)

Lemma element_eta (e : element) :
  Element (tag e) (attrib e) (text e) (children e) = e.
Proof. now destruct e. Qed.

Lemma card_matches_is_match (c : element) (info : token_info) (b : bool) :
  card_matches c info = Ok b -> is_match c info = b.
Proof. unfold is_match. intros ->. now destruct b. Qed.

Lemma is_match_true (c : element) (info : token_info) :
  is_match c info = true <-> card_matches c info = Ok true.
Proof.
  unfold is_match. destruct (card_matches c info) as [[|]|]; split;
    congruence.
Qed.

Lemma findall_cards_cons (tg : str) (at_ : list (str * str)) (tx : option str)
    (c : element) (cs : list element) :
  findall_cards (Element tg at_ tx (c :: cs))
  = (if has_tag (lit "cards") c then children c else [])
    ++ findall_cards (Element tg at_ tx cs).
Proof.
  unfold findall_cards. cbn [children filter].
  now destruct (has_tag (lit "cards") c).
Qed.

Section Matcher.

Variable upper : str -> str.
Variable info : token_info.
Variable set_code : str.

Lemma xmlMatch_card_ok (st : match_state) (c : element) :
  evaluates c info ->
  xmlMatch_card upper info set_code st c
  = Ok (amend_card upper info set_code c,
        if is_match c info then (true, S (snd st)) else st).
Proof.
  intros [b Hb]. unfold xmlMatch_card, amend_card.
  rewrite (card_matches_is_match _ _ Hb), Hb. now destruct b.
Qed.

Lemma xmlMatch_card_inv (st : match_state) (c : element)
    (r : element * match_state) :
  xmlMatch_card upper info set_code st c = Ok r -> evaluates c info.
Proof.
  unfold xmlMatch_card, evaluates.
  destruct (card_matches c info) as [b|e]; [now exists b | discriminate].
Qed.

Lemma xmlMatch_cards_ok (cards : list element) (st : match_state) :
  Forall (fun c => evaluates c info) cards ->
  xmlMatch_cards upper info set_code st cards
  = Ok (map (amend_card upper info set_code) cards,
        (fst st || existsb (fun c => is_match c info) cards,
         snd st + List.length (filter (fun c => is_match c info) cards))).
Proof.
  intros H. revert st. induction H as [|c cards Hc _ IH]; intros [f n].
  - simpl. now rewrite orb_false_r, Nat.add_0_r.
  - cbn [xmlMatch_cards]. rewrite (xmlMatch_card_ok _ Hc). cbn [bind].
    destruct (is_match c info) eqn:Hm; rewrite IH; cbn [bind fst snd map existsb filter];
      rewrite Hm; cbn [orb List.length].
    + now rewrite orb_true_r, Nat.add_succ_r.
    + reflexivity.
Qed.

Lemma xmlMatch_cards_inv (cards : list element) (st : match_state)
    (r : list element * match_state) :
  xmlMatch_cards upper info set_code st cards = Ok r ->
  Forall (fun c => evaluates c info) cards.
Proof.
  revert st r. induction cards as [|c cards IH]; intros st r H.
  - constructor.
  - cbn [xmlMatch_cards] in H.
    destruct (xmlMatch_card upper info set_code st c) as [[c' st1]|] eqn:Hc;
      [|discriminate].
    cbn [bind] in H.
    destruct (xmlMatch_cards upper info set_code st1 cards) as [r1|] eqn:Hr;
      [|discriminate].
    constructor; [eapply xmlMatch_card_inv; eassumption | eapply IH; eassumption].
Qed.

Lemma xmlMatch_children_ok (tg : str) (at_ : list (str * str))
    (tx : option str) (cs : list element) (st : match_state) :
  Forall (fun c => evaluates c info) (findall_cards (Element tg at_ tx cs)) ->
  xmlMatch_children upper info set_code st cs
  = Ok (map (amend_child upper info set_code) cs,
        (fst st || existsb (fun c => is_match c info) (findall_cards (Element tg at_ tx cs)),
         snd st
         + List.length (filter (fun c => is_match c info) (findall_cards (Element tg at_ tx cs))))).
Proof.
  revert st. induction cs as [|c cs IH]; intros [f n] H.
  - simpl. now rewrite orb_false_r, Nat.add_0_r.
  - rewrite findall_cards_cons in *. apply Forall_app in H as [H1 H2].
    cbn [xmlMatch_children map]. unfold amend_child at 1.
    destruct (has_tag (lit "cards") c).
    + rewrite (xmlMatch_cards_ok _ H1). cbn [bind].
      rewrite (IH _ H2). cbn [bind fst snd].
      rewrite existsb_app, filter_app, length_app.
      now rewrite orb_assoc, Nat.add_assoc.
    + rewrite (IH _ H2). cbn [bind fst snd app]. reflexivity.
Qed.

Lemma xmlMatch_children_inv (tg : str) (at_ : list (str * str))
    (tx : option str) (cs : list element) (st : match_state)
    (r : list element * match_state) :
  xmlMatch_children upper info set_code st cs = Ok r ->
  Forall (fun c => evaluates c info) (findall_cards (Element tg at_ tx cs)).
Proof.
  revert st r. induction cs as [|c cs IH]; intros st r H.
  - constructor.
  - rewrite findall_cards_cons. cbn [xmlMatch_children] in H.
    apply Forall_app.
    destruct (has_tag (lit "cards") c).
    + destruct (xmlMatch_cards upper info set_code st (children c))
        as [[es st1]|] eqn:He; [|discriminate].
      cbn [bind] in H.
      destruct (xmlMatch_children upper info set_code st1 cs) as [r1|] eqn:Hr;
        [|discriminate].
      split; [eapply xmlMatch_cards_inv; eassumption | eapply IH; eassumption].
    + destruct (xmlMatch_children upper info set_code st cs) as [r1|] eqn:Hr;
        [|discriminate].
      split; [constructor | eapply IH; eassumption].
Qed.

(** [xmlMatch] returns exactly when the condition evaluates on every entry,
    and then the tree, the value and the counter are these. *)
Lemma xmlMatch_ok (root : element) (n : nat) :
  Forall (fun c => evaluates c info) (findall_cards root) ->
  xmlMatch upper root info set_code n
  = Ok (amend_root upper info set_code root,
        existsb (fun c => is_match c info) (findall_cards root),
        n + List.length (filter (fun c => is_match c info) (findall_cards root))).
Proof.
  intros H. unfold xmlMatch. destruct root as [tg at_ tx cs].
  cbn [children tag attrib text].
  now rewrite (@xmlMatch_children_ok tg at_ tx cs (false, n) H).
Qed.

Lemma xmlMatch_inv (root : element) (n : nat) (r : element * bool * nat) :
  xmlMatch upper root info set_code n = Ok r ->
  Forall (fun c => evaluates c info) (findall_cards root).
Proof.
  unfold xmlMatch. destruct root as [tg at_ tx cs].
  cbn [children tag attrib text].
  destruct (xmlMatch_children upper info set_code (false, n) cs) as [r1|] eqn:H;
    [|discriminate].
  intros _. eapply xmlMatch_children_inv; eassumption.
Qed.

End Matcher.

(** ** Lists and lookups *)

Lemma insert_at_spec (A : Type) (i : nat) (x : A) (l : list A) :
  i <= List.length l ->
  nth_error (firstn i l ++ x :: skipn i l) i = Some x
  /\ firstn i (firstn i l ++ x :: skipn i l) = firstn i l
  /\ skipn (S i) (firstn i l ++ x :: skipn i l) = skipn i l.
Proof.
  intros Hi.
  assert (Hlen : List.length (firstn i l) = i) by (rewrite length_firstn; lia).
  repeat split.
  - rewrite nth_error_app2 by lia. now rewrite Hlen, Nat.sub_diag.
  - rewrite firstn_app, Hlen, Nat.sub_diag. cbn [firstn].
    rewrite app_nil_r. rewrite firstn_firstn. f_equal. lia.
  - rewrite skipn_app, Hlen.
    rewrite (@skipn_all2 _ (S i) (firstn i l)) by lia.
    replace (S i - i) with 1 by lia. reflexivity.
Qed.

Lemma Forall2_map_same (A : Type) (R : A -> A -> Prop) (f : A -> A)
    (l : list A) :
  (forall x, In x l -> R x (f x)) -> Forall2 R l (map f l).
Proof.
  induction l as [|x l IH]; intros H; simpl; constructor.
  - apply H. now left.
  - apply IH. intros y Hy. apply H. now right.
Qed.

Lemma find_In (e el : element) (t : str) :
  find e t = Some el -> In el (children e) /\ tag el = t.
Proof.
  unfold find. intros H. apply find_some in H as [Hin Ht].
  split; [assumption | now apply str_eqb_eq].
Qed.

Lemma find_hd_filter (e : element) (t : str) :
  find e t = hd_error (filter (has_tag t) (children e)).
Proof.
  unfold find. induction (children e) as [|c cs IH]; [reflexivity|].
  simpl. now destruct (has_tag t c).
Qed.

Lemma find_path_parent (e el : element) (t1 t2 : str) :
  find_path e t1 t2 = Some el -> exists p, find e t1 = Some p.
Proof.
  unfold find_path, findall_path. rewrite find_hd_filter.
  destruct (filter (has_tag t1) (children e)) as [|p ps].
  - discriminate.
  - intros _. now exists p.
Qed.

Lemma two_children (e a b : element) (t1 t2 : str) :
  find e t1 = Some a -> find e t2 = Some b -> t1 <> t2 ->
  2 <= List.length (children e).
Proof.
  intros Ha Hb Hne.
  apply find_In in Ha as [Ha Hta]. apply find_In in Hb as [Hb Htb].
  change 2 with (List.length [a; b]).
  apply NoDup_incl_length.
  - constructor; [|constructor; [intros [] | constructor]].
    intros [E|[]]. subst. congruence.
  - intros x [<-|[<-|[]]]; assumption.
Qed.

Lemma three_children (e a b c : element) (t1 t2 t3 : str) :
  find e t1 = Some a -> find e t2 = Some b -> find e t3 = Some c ->
  t1 <> t2 -> t1 <> t3 -> t2 <> t3 ->
  3 <= List.length (children e).
Proof.
  intros Ha Hb Hc H12 H13 H23.
  apply find_In in Ha as [Ha Hta]. apply find_In in Hb as [Hb Htb].
  apply find_In in Hc as [Hc Htc].
  change 3 with (List.length [a; b; c]).
  apply NoDup_incl_length.
  - constructor; [|constructor; [|constructor; [intros [] | constructor]]].
    + intros [E|[E|[]]]; subst; congruence.
    + intros [E|[]]. subst. congruence.
  - intros x [<-|[<-|[<-|[]]]]; assumption.
Qed.

(** ** What a match says about the entry *)

Lemma is_match_comparable (c : element) (info : token_info) :
  is_match c info = true -> comparable c.
Proof.
  intros H. apply is_match_true in H.
  apply card_matches_spec in H as [[nm [sfx [Hn _]]] [_ [[ty [Ht _]] _]]].
  unfold comparable. rewrite Ht. split; [|discriminate].
  unfold findtext in Hn. now destruct (find c (lit "name")).
Qed.

Lemma comparable_evaluates (c : element) (info : token_info) :
  comparable c -> evaluates c info.
Proof.
  intros [Hn Ht]. unfold evaluates. rewrite card_matches_unfold.
  unfold findtext at 1.
  destruct (find c (lit "name")) as [nm|]; [|congruence]. cbn [option_map].
  destruct (find_path c (lit "prop") (lit "type")) as [ty|]; [|congruence].
  repeat match goal with
         | |- context [if ?b then _ else _] => destruct b
         end; eexists; reflexivity.
Qed.

Lemma probe_evaluates_comparable (c : element) :
  evaluates c (probe c) -> comparable c.
Proof.
  intros [b Hb]. rewrite card_matches_unfold in Hb. unfold comparable.
  unfold findtext at 1 in Hb.
  destruct (find c (lit "name")) as [nm|]; [|discriminate].
  cbn [option_map] in Hb.
  assert (Hs : startswith (text_or_empty nm) (token_name (probe c)) = true)
    by (apply startswith_prefix; now exists (text_or_empty nm)).
  rewrite Hs in Hb. cbn [negb token_text probe] in Hb.
  rewrite str_eqb_refl in Hb. cbn [negb] in Hb.
  destruct (find_path c (lit "prop") (lit "type")); [|discriminate].
  split; discriminate.
Qed.

Lemma add_set_line_inserted (upper : str -> str) (c : element)
    (info : token_info) (set_code : str) :
  is_match c info = true ->
  inserted_at (if iselement (find c (lit "text")) then 3 else 2)
              (set_line upper info set_code) c
              (add_set_line upper c info set_code).
Proof.
  intros H. apply is_match_comparable in H as [Hn Ht].
  destruct (find c (lit "name")) as [nm|] eqn:En; [|congruence].
  destruct (find_path c (lit "prop") (lit "type")) as [ty|] eqn:Et;
    [|congruence].
  destruct (find_path_parent _ _ _ Et) as [p Ep].
  unfold add_set_line, inserted_at.
  destruct (find c (lit "text")) as [tx|] eqn:Ex; cbn [iselement].
  - assert (Hlen : 3 <= List.length (children c)).
    { eapply three_children; [exact En | exact Ex | exact Ep | ..]; discriminate. }
    destruct (@insert_at_spec _ 3 (set_line upper info set_code) (children c) Hlen)
      as [H1 [H2 H3]].
    unfold insert_child. cbn [tag attrib text children].
    repeat split; assumption.
  - assert (Hlen : 2 <= List.length (children c)).
    { eapply two_children; [exact En | exact Ep |]; discriminate. }
    destruct (@insert_at_spec _ 2 (set_line upper info set_code) (children c) Hlen)
      as [H1 [H2 H3]].
    unfold insert_child. cbn [tag attrib text children].
    repeat split; assumption.
Qed.

Section MatcherClaims.

Variable upper : str -> str.

Lemma amend_card_frame (info : token_info) (set_code : str) (c : element) :
  entry_frame upper info set_code c (amend_card upper info set_code c).
Proof.
  unfold entry_frame, amend_card.
  destruct (is_match c info) eqn:H; [|reflexivity].
  now apply add_set_line_inserted.
Qed.

Lemma amend_child_frame (info : token_info) (set_code : str) (c : element) :
  child_frame upper info set_code c (amend_child upper info set_code c).
Proof.
  unfold child_frame, amend_child.
  destruct (has_tag (lit "cards") c); [|reflexivity].
  cbn [tag attrib text children]. repeat split.
  apply Forall2_map_same. intros x _. apply amend_card_frame.
Qed.

Lemma has_tag_amend_child (info : token_info) (set_code t : str) (c : element) :
  has_tag t (amend_child upper info set_code c) = has_tag t c.
Proof.
  unfold amend_child. now destruct (has_tag (lit "cards") c).
Qed.

Lemma findall_cards_amend (info : token_info) (set_code : str) (root : element) :
  findall_cards (amend_root upper info set_code root)
  = map (amend_card upper info set_code) (findall_cards root).
Proof.
  unfold findall_cards, amend_root. cbn [children].
  induction (children root) as [|c cs IH]; [reflexivity|].
  cbn [map filter]. rewrite has_tag_amend_child.
  destruct (has_tag (lit "cards") c) eqn:E; [|exact IH].
  cbn [flat_map]. rewrite map_app, IH. f_equal.
  unfold amend_child. now rewrite E.
Qed.

(** C5: when [xmlMatch] returns, every matching entry has received one new
    [set] line with the uppercased set code as text and the record's image
    as [picURL], every other entry is as it was, the counter has grown by
    the number of matching entries, and the value returned is [True]
    exactly when some entry matched. *)
Theorem xmlMatch_updates_every_match (root root' : element)
    (info : token_info) (set_code : str) (n n' : nat) (match_found : bool) :
  xmlMatch upper root info set_code n = Ok (root', match_found, n') ->
  n' = n + List.length (filter (fun c => is_match c info) (findall_cards root))
  /\ (match_found = true <->
      exists c, In c (findall_cards root) /\ card_matches c info = Ok true)
  /\ Forall2
       (fun c c' =>
          if is_match c info
          then In (Element (lit "set") [(lit "picURL", token_image info)]
                           (Some (upper set_code)) [])
                  (children c')
               /\ List.length (children c') = S (List.length (children c))
          else c' = c)
       (findall_cards root) (findall_cards root').
Proof.
  intros H. pose proof (@xmlMatch_inv _ _ _ _ _ _ H) as Hev.
  rewrite (@xmlMatch_ok upper info set_code root n Hev) in H.
  injection H as <- <- <-.
  split; [reflexivity|]. split.
  - rewrite existsb_exists. split.
    + intros [c [Hin Hc]]. exists c. split; [assumption|].
      now apply is_match_true.
    + intros [c [Hin Hc]]. exists c. split; [assumption|].
      now apply is_match_true.
  - rewrite findall_cards_amend. apply Forall2_map_same. intros c _.
    pose proof (amend_card_frame info set_code c) as Hf.
    unfold entry_frame in Hf. destruct (is_match c info); [|assumption].
    destruct Hf as [_ [_ [_ [Hle [Hnth [Hfst Hskp]]]]]].
    split.
    + eapply nth_error_In. exact Hnth.
    + set (i := if iselement (find c (lit "text")) then 3 else 2) in *.
      assert (Hlt : i < List.length (children (amend_card upper info set_code c)))
        by (apply nth_error_Some; congruence).
      rewrite <- (firstn_skipn (S i) (children (amend_card upper info set_code c))).
      rewrite length_app, Hskp, length_firstn, length_skipn. lia.
Qed.

(** C7: a call of [xmlMatch] that returns leaves the root and each of its
    children as they were, but for the entries under [cards] that match:
    such an entry has one new child, the [set] line, at index 3 when it has a
    [text] child and at index 2 when it has none, and its other children, in
    their order, its tag, attributes and text are as before.  An entry that
    does not match is unchanged. *)
Theorem xmlMatch_frame (root root' : element) (info : token_info)
    (set_code : str) (n n' : nat) (match_found : bool) :
  xmlMatch upper root info set_code n = Ok (root', match_found, n') ->
  tag root' = tag root /\ attrib root' = attrib root /\ text root' = text root
  /\ Forall2 (child_frame upper info set_code) (children root) (children root')
  /\ Forall2 (entry_frame upper info set_code)
             (findall_cards root) (findall_cards root').
Proof.
  intros H. pose proof (@xmlMatch_inv _ _ _ _ _ _ H) as Hev.
  rewrite (@xmlMatch_ok upper info set_code root n Hev) in H.
  injection H as <- _ _.
  repeat split.
  - cbn [amend_root children]. apply Forall2_map_same.
    intros c _. apply amend_child_frame.
  - rewrite findall_cards_amend. apply Forall2_map_same.
    intros c _. apply amend_card_frame.
Qed.

End MatcherClaims.

(** ** The loop of updateTokenXML: exceptions *)

Lemma fetchTokenInfo_no_image (sf : sf_entry) :
  large_image sf = None -> exists k, fetchTokenInfo sf = Raise (KeyError k).
Proof.
  unfold large_image, fetchTokenInfo. intros H.
  destruct (name sf); [|eexists; reflexivity].
  destruct (oracle_text sf); [|eexists; reflexivity].
  destruct (type_line sf); [|eexists; reflexivity].
  destruct (colors sf); [|eexists; reflexivity].
  destruct (image_uris sf) as [[uri|]|]; [discriminate|..]; eexists; reflexivity.
Qed.

Section Orchestrator.

Variable upper : str -> str.
Variable set_code : str.

Lemma sync_tokens_app (st : sync_state) (pre post : list sf_token) :
  sync_tokens upper set_code st (pre ++ post)
  = (st1 <- sync_tokens upper set_code st pre ;;
     sync_tokens upper set_code st1 post).
Proof.
  revert st; induction pre as [|sf pre IH]; intros st; [reflexivity|].
  cbn [app sync_tokens].
  destruct (sync_token upper set_code st sf); [apply IH | reflexivity].
Qed.

Lemma sync_faces_raises (faces : list sf_entry) (f : sf_entry) (st : sync_state) :
  In f faces -> large_image f = None ->
  exists e, sync_faces upper set_code st faces = Raise e.
Proof.
  intros Hin Hf. revert st. induction faces as [|g faces IH]; intros st.
  - destruct Hin.
  - cbn [sync_faces].
    destruct Hin as [->|Hin].
    + destruct (fetchTokenInfo_no_image _ Hf) as [k ->]. eexists. reflexivity.
    + destruct (fetchTokenInfo g) as [gi|e]; [|eexists; reflexivity].
      cbn [bind].
      destruct (match_or_create upper set_code st gi) as [st1|e];
        [|eexists; reflexivity].
      cbn [bind]. now apply IH.
Qed.

Lemma sync_token_raises (sf : sf_token) (f : sf_entry) (st : sync_state) :
  In f (normalized_of sf) -> large_image f = None ->
  exists e, sync_token upper set_code st sf = Raise e.
Proof.
  unfold normalized_of, sync_token. intros Hin Hf.
  destruct (layout sf) as [lay|]; [|eexists; reflexivity].
  cbn [subscript bind].
  destruct (str_eqb lay (lit "double_faced_token")).
  - destruct (card_faces sf) as [faces|]; [|destruct Hin].
    cbn [subscript bind]. eapply sync_faces_raises; eassumption.
  - destruct Hin as [<-|[]].
    destruct (fetchTokenInfo_no_image _ Hf) as [k ->]. eexists. reflexivity.
Qed.

(** C8, as the code has it: normalizing a record without the large image
    reference raises [KeyError], and nothing in [updateTokenXML] catches it:
    a token set with such a record among those it normalizes ends the whole
    run with an exception, whatever comes before and after it. *)
Theorem missing_image_ends_run (root : element) (pre post : list sf_token)
    (sf : sf_token) (f : sf_entry) :
  In f (normalized_of sf) -> large_image f = None ->
  (exists k, fetchTokenInfo f = Raise (KeyError k))
  /\ exists e,
      updateTokenXML upper set_code root (pre ++ sf :: post) = Raise e.
Proof.
  intros Hin Hf. split; [now apply fetchTokenInfo_no_image|].
  unfold updateTokenXML. rewrite sync_tokens_app.
  destruct (sync_tokens upper set_code _ pre) as [st1|e];
    [|eexists; reflexivity].
  cbn [bind sync_tokens].
  destruct (sync_token_raises sf f st1 Hin Hf) as [e ->].
  eexists. reflexivity.
Qed.

End Orchestrator.

(** ** Matching does not read the set lines *)

Lemma filter_tag_nonset (t : str) (c : element) :
  t <> lit "set" ->
  filter (has_tag t) (children c) = filter (has_tag t) (nonset c).
Proof.
  intros Ht. unfold nonset.
  induction (children c) as [|x l IH]; [reflexivity|].
  cbn [filter]. destruct (has_tag t x) eqn:Hx.
  - assert (Hs : has_tag (lit "set") x = false).
    { apply str_eqb_neq. apply str_eqb_eq in Hx. congruence. }
    rewrite Hs. cbn [negb filter]. rewrite Hx. now rewrite IH.
  - destruct (negb (has_tag (lit "set") x)); cbn [filter];
      [rewrite Hx|]; exact IH.
Qed.

Lemma same_entry_filter (c c' : element) (t : str) :
  same_entry c c' -> t <> lit "set" ->
  filter (has_tag t) (children c) = filter (has_tag t) (children c').
Proof.
  intros H Ht. rewrite !(filter_tag_nonset _ Ht). now rewrite H.
Qed.

Lemma same_entry_find (c c' : element) (t : str) :
  same_entry c c' -> t <> lit "set" -> find c t = find c' t.
Proof.
  intros H Ht. rewrite !find_hd_filter. now rewrite (same_entry_filter H Ht).
Qed.

Lemma same_entry_find_path (c c' : element) (t1 t2 : str) :
  same_entry c c' -> t1 <> lit "set" -> find_path c t1 t2 = find_path c' t1 t2.
Proof.
  intros H Ht. unfold find_path, findall_path.
  now rewrite (same_entry_filter H Ht).
Qed.

Lemma same_entry_card_matches (c c' : element) (info : token_info) :
  same_entry c c' -> card_matches c info = card_matches c' info.
Proof.
  intros H. unfold card_matches, findtext.
  rewrite (same_entry_find (t := lit "name") H) by discriminate.
  rewrite (same_entry_find (t := lit "text") H) by discriminate.
  rewrite !(same_entry_find_path (t1 := lit "prop") _ H) by discriminate.
  reflexivity.
Qed.

Lemma same_entry_is_match (c c' : element) (info : token_info) :
  same_entry c c' -> is_match c info = is_match c' info.
Proof.
  intros H. unfold is_match. now rewrite (same_entry_card_matches info H).
Qed.

Lemma same_entry_amend (upper : str -> str) (info : token_info)
    (set_code : str) (c : element) :
  same_entry c (amend_card upper info set_code c).
Proof.
  unfold same_entry, amend_card, add_set_line.
  destruct (is_match c info); [|reflexivity].
  assert (H : forall i,
             nonset c = nonset (insert_child i (set_line upper info set_code) c)).
  { intros i. unfold nonset, insert_child. cbn [children].
    rewrite filter_app. cbn [filter].
    change (negb (has_tag (lit "set") (set_line upper info set_code)))
      with false.
    cbn iota. rewrite <- filter_app. now rewrite firstn_skipn. }
  destruct (iselement (find c (lit "text"))); apply H.
Qed.

Lemma same_entries_matches (es es' : list element) (info : token_info) :
  Forall2 same_entry es es' ->
  (Forall (fun c => evaluates c info) es ->
   Forall (fun c => evaluates c info) es')
  /\ existsb (fun c => is_match c info) es
     = existsb (fun c => is_match c info) es'
  /\ List.length (filter (fun c => is_match c info) es)
     = List.length (filter (fun c => is_match c info) es').
Proof.
  induction 1 as [|c c' es es' Hc _ [IH1 [IH2 IH3]]].
  - repeat split. constructor.
  - cbn [existsb filter]. rewrite (same_entry_is_match info Hc), IH2.
    repeat split.
    + intros H. inversion H as [|? ? Hx Hr]; subst. constructor.
      * unfold evaluates in *. now rewrite <- (same_entry_card_matches info Hc).
      * now apply IH1.
    + destruct (is_match c' info); cbn [List.length]; now rewrite IH3.
Qed.

Lemma same_entries_amend (upper : str -> str) (info : token_info)
    (set_code : str) (es es' : list element) :
  Forall2 same_entry es es' ->
  Forall2 same_entry (map (amend_card upper info set_code) es)
          (map (amend_card upper info set_code) es').
Proof.
  induction 1 as [|c c' es es' Hc _ IH]; cbn [map]; constructor; [|exact IH].
  unfold same_entry in *.
  rewrite <- (same_entry_amend upper info set_code c).
  rewrite <- (same_entry_amend upper info set_code c'). exact Hc.
Qed.

Lemma same_catalog_refl (r : element) : same_catalog r r.
Proof.
  unfold same_catalog. induction (findall_cards r); constructor;
    [reflexivity | assumption].
Qed.

Lemma same_catalog_trans (r1 r2 r3 : element) :
  same_catalog r1 r2 -> same_catalog r2 r3 -> same_catalog r1 r3.
Proof.
  unfold same_catalog. generalize (findall_cards r1) as l1.
  generalize (findall_cards r2) as l2. generalize (findall_cards r3) as l3.
  intros l3 l2 l1 H. revert l3.
  induction H as [|a b l1 l2 Hab _ IH]; intros l3 H23; inversion H23; subst;
    constructor.
  - unfold same_entry in *. congruence.
  - now apply IH.
Qed.

Section Rerun.

Variable upper : str -> str.
Variable set_code : str.

(** [xmlMatch] leaves a catalog that matches as the one it was given. *)
Lemma xmlMatch_same_catalog (root root' : element) (info : token_info)
    (n n' : nat) (found : bool) :
  xmlMatch upper root info set_code n = Ok (root', found, n') ->
  same_catalog root root'.
Proof.
  intros H. pose proof (@xmlMatch_inv _ _ _ _ _ _ H) as Hev.
  rewrite (@xmlMatch_ok upper info set_code root n Hev) in H.
  injection H as <- _ _. unfold same_catalog.
  rewrite findall_cards_amend. apply Forall2_map_same.
  intros c _. apply same_entry_amend.
Qed.

(** On catalogs that match alike [xmlMatch] returns the same value and
    counter. *)
Lemma xmlMatch_transfer (r r' r1 : element) (info : token_info)
    (n n1 : nat) (found : bool) :
  same_catalog r r' ->
  xmlMatch upper r info set_code n = Ok (r1, found, n1) ->
  exists r1',
    xmlMatch upper r' info set_code n = Ok (r1', found, n1)
    /\ same_catalog r1 r1'.
Proof.
  intros Hs H. pose proof (@xmlMatch_inv _ _ _ _ _ _ H) as Hev.
  rewrite (@xmlMatch_ok upper info set_code r n Hev) in H.
  injection H as <- <- <-.
  destruct (same_entries_matches info Hs) as [Hev' [Hex Hlen]].
  exists (amend_root upper info set_code r'). split.
  - rewrite (@xmlMatch_ok upper info set_code r' n (Hev' Hev)).
    now rewrite Hex, Hlen.
  - unfold same_catalog. rewrite !findall_cards_amend.
    now apply same_entries_amend.
Qed.

Lemma match_or_create_transfer (st st' st1 : sync_state) (info : token_info) :
  same_state st st' ->
  match_or_create upper set_code st info = Ok st1 ->
  same_catalog (xml_root st) (xml_root st1)
  /\ exists st1',
      match_or_create upper set_code st' info = Ok st1' /\ same_state st1 st1'.
Proof.
  intros [Hc [Hk [Hn [Hd Hr]]]] H. unfold match_or_create in *.
  destruct (xmlMatch upper (xml_root st) info set_code (reprint_count st))
    as [[[r1 found] n1]|] eqn:Hx; [|discriminate].
  pose proof (@xmlMatch_same_catalog _ _ _ _ _ _ Hx) as Hsame.
  destruct (@xmlMatch_transfer _ _ _ _ _ _ _ Hc Hx) as [r1' [Hx' Hc']].
  rewrite Hr, Hx'. cbn [bind] in *.
  destruct found; cbn [negb] in *; injection H as <-; cbn [xml_root];
    (split; [assumption|]); eexists; (split; [reflexivity|]);
    unfold same_state, same_counts; cbn; repeat split;
    try assumption; congruence.
Qed.

Lemma sync_faces_transfer (faces : list sf_entry) (st st' st1 : sync_state) :
  same_state st st' ->
  sync_faces upper set_code st faces = Ok st1 ->
  same_catalog (xml_root st) (xml_root st1)
  /\ exists st1',
      sync_faces upper set_code st' faces = Ok st1' /\ same_state st1 st1'.
Proof.
  revert st st'. induction faces as [|f faces IH]; intros st st' Hs H.
  - cbn [sync_faces] in *. injection H as <-.
    split; [apply same_catalog_refl|]. now exists st'.
  - cbn [sync_faces] in *.
    destruct (fetchTokenInfo f) as [fi|]; [|discriminate]. cbn [bind] in *.
    destruct (match_or_create upper set_code st fi) as [st2|] eqn:Hm;
      [|discriminate].
    destruct (@match_or_create_transfer _ _ _ _ Hs Hm) as [Hc [st2' [Hm' Hs2]]].
    rewrite Hm'. cbn [bind] in *.
    destruct (IH _ _ Hs2 H) as [Hc2 [st1' [H' Hs1]]].
    split; [eapply same_catalog_trans; eassumption|]. now exists st1'.
Qed.

Lemma sync_token_transfer (sf : sf_token) (st st' st1 : sync_state) :
  same_state st st' ->
  sync_token upper set_code st sf = Ok st1 ->
  same_catalog (xml_root st) (xml_root st1)
  /\ exists st1',
      sync_token upper set_code st' sf = Ok st1' /\ same_state st1 st1'.
Proof.
  intros Hs H. unfold sync_token in *.
  destruct (layout sf) as [lay|]; [|discriminate]. cbn [subscript bind] in *.
  destruct (str_eqb lay (lit "double_faced_token")).
  - destruct (card_faces sf) as [faces|]; [|discriminate].
    cbn [subscript bind] in *.
    eapply sync_faces_transfer in H as [Hc He]; [split; [exact Hc | exact He]|].
    destruct Hs as [Hc [Hk [Hn [Hd Hr]]]].
    unfold same_state, same_counts. cbn. repeat split;
      try assumption; congruence.
  - destruct (fetchTokenInfo (entry sf)) as [fi|]; [|discriminate].
    cbn [bind] in *. eapply match_or_create_transfer; eassumption.
Qed.

Lemma sync_tokens_transfer (ts : list sf_token) (st st' st1 : sync_state) :
  same_state st st' ->
  sync_tokens upper set_code st ts = Ok st1 ->
  same_catalog (xml_root st) (xml_root st1)
  /\ exists st1',
      sync_tokens upper set_code st' ts = Ok st1' /\ same_state st1 st1'.
Proof.
  revert st st'. induction ts as [|sf ts IH]; intros st st' Hs H.
  - cbn [sync_tokens] in *. injection H as <-.
    split; [apply same_catalog_refl|]. now exists st'.
  - cbn [sync_tokens] in *.
    destruct (sync_token upper set_code st sf) as [st2|] eqn:Hm; [|discriminate].
    destruct (@sync_token_transfer _ _ _ _ Hs Hm) as [Hc [st2' [Hm' Hs2]]].
    rewrite Hm'. cbn [bind] in *.
    destruct (IH _ _ Hs2 H) as [Hc2 [st1' [H' Hs1]]].
    split; [eapply same_catalog_trans; eassumption|]. now exists st1'.
Qed.

(** C9, as the code has it: a second run with the same token set and set
    code on the catalog that the first run left returns, and its counts,
    the reprint count and the number of new entries, are those of the first
    run, and so are the new entries. *)
Theorem second_run_same_counts (root : element) (token_set : list sf_token)
    (st1 : sync_state) :
  updateTokenXML upper set_code root token_set = Ok st1 ->
  exists st2,
    updateTokenXML upper set_code (xml_root st1) token_set = Ok st2
    /\ reprint_count st2 = reprint_count st1
    /\ new_token_count st2 = new_token_count st1
    /\ cards st2 = cards st1.
Proof.
  unfold updateTokenXML. intros H.
  assert (Hrefl : same_state
            {| xml_root := root; cards := []; new_token_count := 0;
               double_faced_count := 0; reprint_count := 0 |}
            {| xml_root := root; cards := []; new_token_count := 0;
               double_faced_count := 0; reprint_count := 0 |}).
  { split; [apply same_catalog_refl | repeat split]. }
  destruct (@sync_tokens_transfer _ _ _ _ Hrefl H) as [Hc _]. cbn [xml_root] in Hc.
  assert (Hs : same_state
            {| xml_root := root; cards := []; new_token_count := 0;
               double_faced_count := 0; reprint_count := 0 |}
            {| xml_root := xml_root st1; cards := []; new_token_count := 0;
               double_faced_count := 0; reprint_count := 0 |}).
  { split; [exact Hc | repeat split]. }
  destruct (@sync_tokens_transfer _ _ _ _ Hs H) as [_ [st2 [H2 [_ [Hk [Hn [_ Hr]]]]]]].
  exists st2. repeat split; assumption.
Qed.

End Rerun.

(** ** The theorems on concrete inputs *)

Lemma maintype_by_first_match_witness :
  maintype_text (lit "Artifact Creature") = lit "Creature"
  /\ maintype_text (lit "Artifact Creature") <> lit "Artifact".
Proof.
  pose proof (maintype_by_first_match ascii_upper
                (plain_info (lit "Karnstruct") (lit "Artifact Creature")) abc)
    as [_ [H1 [H2 _]]].
  split; [apply H1 | apply H2]; reflexivity.
Defined.

(** C2 fails as stated on a type line that has "Artifact" and "Creature" in
    it and "Emblem" as well: it is classified as Emblem. *)
Lemma emblem_before_creature :
  contains (lit "Artifact") (lit "Emblem Artifact Creature") = true
  /\ contains (lit "Creature") (lit "Emblem Artifact Creature") = true
  /\ findall_path
       (createXmlEntry ascii_upper
          (plain_info (lit "X") (lit "Emblem Artifact Creature")) abc)
       (lit "prop") (lit "maintype")
     = [leaf "maintype" (lit "Emblem")]
  /\ lit "Emblem" <> lit "Creature".
Proof. repeat split; try reflexivity. discriminate. Qed.

Lemma name_by_second_piece_witness :
  find (createXmlEntry ascii_upper (plain_info (lit "Spirit") spirit_type) abc)
       (lit "name")
  = Some (leaf "name" (lit "Spirit Token"))
  /\ find (createXmlEntry ascii_upper
             (plain_info (lit "Spirit") spirit_warrior_type) abc)
          (lit "name")
     = Some (leaf "name" (lit "Spirit"))
  /\ find (createXmlEntry ascii_upper
             (plain_info (lit "Spirit") (lit "Token Creature")) abc)
          (lit "name")
     = Some (leaf "name" (lit "Spirit"))
  /\ after_first SUBTYPE_SEP spirit_type = after_last SUBTYPE_SEP spirit_type.
Proof.
  split; [|split; [|split]].
  - destruct (proj1 (proj2 (name_by_second_piece ascii_upper
                              (plain_info (lit "Spirit") spirit_type) abc))
                eq_refl) as [subtype [Hs [Heq _]]].
    apply Heq. vm_compute in Hs. now injection Hs as <-.
  - destruct (proj1 (proj2 (name_by_second_piece ascii_upper
                              (plain_info (lit "Spirit") spirit_warrior_type) abc))
                eq_refl) as [subtype [Hs [_ Hne]]].
    apply Hne. vm_compute in Hs. injection Hs as <-. discriminate.
  - apply (proj1 (name_by_second_piece ascii_upper
                    (plain_info (lit "Spirit") (lit "Token Creature")) abc)).
    reflexivity.
  - apply (proj2 (proj2 (name_by_second_piece ascii_upper
                           (plain_info (lit "Spirit") spirit_type) abc)) 14);
      reflexivity.
Defined.

(** On a type line with the literal of the source twice, the text after
    the last one is "Warrior", which is not the name "Spirit", and the entry
    is named "Spirit Token" all the same, because the piece after the first
    one is "Spirit". *)
Lemma second_piece_not_last :
  contains SUBTYPE_SEP two_separator_type = true
  /\ after_last SUBTYPE_SEP two_separator_type = Some (lit "Warrior")
  /\ lit "Warrior" <> lit "Spirit"
  /\ find (createXmlEntry ascii_upper
             (plain_info (lit "Spirit") two_separator_type) abc)
          (lit "name")
     = Some (leaf "name" (lit "Spirit Token")).
Proof. repeat split; try reflexivity. discriminate. Qed.

(** C3, where the code goes wrong: the separator literal of line 219 is not
    " — " written with U+2014, the em dash that the comment of line 218
    speaks of.  The type line "Token Creature — Spirit" contains the em dash
    separator, the text after its last occurrence is "Spirit", the record's
    name; but the code does not split the line, and the entry is named
    "Spirit", not "Spirit Token". *)
Theorem em_dash_line_not_split :
  SUBTYPE_SEP <> EM_DASH_SEP
  /\ contains EM_DASH_SEP em_dash_spirit_type = true
  /\ after_last EM_DASH_SEP em_dash_spirit_type = Some (lit "Spirit")
  /\ token_name (plain_info (lit "Spirit") em_dash_spirit_type) = lit "Spirit"
  /\ split SUBTYPE_SEP em_dash_spirit_type = [em_dash_spirit_type]
  /\ find (createXmlEntry ascii_upper
             (plain_info (lit "Spirit") em_dash_spirit_type) abc)
          (lit "name")
     = Some (leaf "name" (lit "Spirit"))
  /\ lit "Spirit" <> lit "Spirit Token".
Proof.
  split; [discriminate|]. split; [reflexivity|]. split; [reflexivity|].
  split; [reflexivity|]. split; [reflexivity|]. split; [reflexivity|].
  discriminate.
Qed.

Lemma xmlMatch_updates_every_match_witness :
  xmlMatch ascii_upper goblin_catalog (goblin_info "Goblin") abc 5
  = Ok (amend_root ascii_upper (goblin_info "Goblin") abc goblin_catalog, true, 7)
  /\ 7 = 5 + List.length (filter (fun c => is_match c (goblin_info "Goblin"))
                                 (findall_cards goblin_catalog)).
Proof.
  assert (H : xmlMatch ascii_upper goblin_catalog (goblin_info "Goblin") abc 5
              = Ok (amend_root ascii_upper (goblin_info "Goblin") abc
                               goblin_catalog, true, 7))
    by reflexivity.
  split; [exact H|].
  exact (proj1 (@xmlMatch_updates_every_match ascii_upper _ _ _ _ _ _ _ H)).
Defined.

Lemma xmlMatch_frame_witness :
  xmlMatch ascii_upper goblin_catalog (goblin_info "Goblin") abc 0
  = Ok (amend_root ascii_upper (goblin_info "Goblin") abc goblin_catalog, true, 2)
  /\ Forall2 (entry_frame ascii_upper (goblin_info "Goblin") abc)
             (findall_cards goblin_catalog)
             (findall_cards
                (amend_root ascii_upper (goblin_info "Goblin") abc goblin_catalog)).
Proof.
  assert (H : xmlMatch ascii_upper goblin_catalog (goblin_info "Goblin") abc 0
              = Ok (amend_root ascii_upper (goblin_info "Goblin") abc
                               goblin_catalog, true, 2))
    by reflexivity.
  split; [exact H|].
  exact (proj2 (proj2 (proj2 (proj2
           (@xmlMatch_frame ascii_upper _ _ _ _ _ _ _ H))))).
Defined.

Lemma missing_image_ends_run_witness :
  (exists k, fetchTokenInfo spirit_card_no_image = Raise (KeyError k))
  /\ exists e,
      updateTokenXML ascii_upper abc goblin_catalog
        ([single goblin_card] ++ single spirit_card_no_image
                              :: [single spirit_card])
      = Raise e.
Proof.
  apply (missing_image_ends_run ascii_upper abc goblin_catalog
           [single goblin_card] [single spirit_card]
           (single spirit_card_no_image) spirit_card_no_image).
  - left. reflexivity.
  - reflexivity.
Defined.

(** C8 fails as stated: with a record without image first in the set, the
    run does not go on to the Spirit after it, which alone gives a run with
    one new entry; it ends with the [KeyError]. *)
Lemma missing_image_run_does_not_continue :
  large_image spirit_card_no_image = None
  /\ (exists st,
         updateTokenXML ascii_upper abc empty_catalog [single spirit_card] = Ok st
         /\ new_token_count st = 1)
  /\ updateTokenXML ascii_upper abc empty_catalog
       [single spirit_card_no_image; single spirit_card]
     = Raise (KeyError (lit "image_uris"))
  /\ ~ (exists st,
          updateTokenXML ascii_upper abc empty_catalog
            [single spirit_card_no_image; single spirit_card]
          = Ok st).
Proof.
  split; [reflexivity|]. split; [eexists; split; reflexivity|].
  split; [reflexivity|]. intros [st H]. discriminate.
Qed.

Lemma second_run_same_counts_witness :
  exists st1 st2,
    updateTokenXML ascii_upper abc goblin_catalog
      [single goblin_card; single spirit_card] = Ok st1
    /\ updateTokenXML ascii_upper abc (xml_root st1)
         [single goblin_card; single spirit_card] = Ok st2
    /\ reprint_count st2 = reprint_count st1
    /\ new_token_count st2 = new_token_count st1.
Proof.
  destruct (updateTokenXML ascii_upper abc goblin_catalog
              [single goblin_card; single spirit_card]) as [st1|e] eqn:H.
  - destruct (second_run_same_counts ascii_upper abc goblin_catalog
                [single goblin_card; single spirit_card] H)
      as [st2 [H2 [Hr [Hn _]]]].
    exists st1, st2. repeat split; assumption.
  - vm_compute in H. discriminate.
Defined.

(** C9 fails as stated.  A record that matched nothing in the first run is
    written to the new entries, not to the catalog, and is new again in the
    second run: reprint count 0 and new count 1 for a set of size 1.  And a
    record that matches two entries is counted twice: reprint count 2 for a
    set of size 1. *)
Lemma second_run_not_all_reprints :
  (exists st1 st2,
      updateTokenXML ascii_upper abc empty_catalog [single spirit_card] = Ok st1
      /\ updateTokenXML ascii_upper abc (xml_root st1) [single spirit_card]
         = Ok st2
      /\ set_size [single spirit_card] = 1
      /\ reprint_count st2 = 0
      /\ new_token_count st2 = 1
      /\ ~ (reprint_count st2 = set_size [single spirit_card]
            /\ new_token_count st2 = 0))
  /\ (exists st1 st2,
         updateTokenXML ascii_upper abc goblin_catalog [single goblin_card]
         = Ok st1
         /\ updateTokenXML ascii_upper abc (xml_root st1) [single goblin_card]
            = Ok st2
         /\ set_size [single goblin_card] = 1
         /\ reprint_count st2 = 2
         /\ ~ (reprint_count st2 = set_size [single goblin_card]
               /\ new_token_count st2 = 0)).
Proof.
  split.
  - eexists. eexists. split; [reflexivity|]. split; [reflexivity|].
    repeat split. intros [H _]. discriminate.
  - eexists. eexists. split; [reflexivity|]. split; [reflexivity|].
    repeat split. intros [H _]. discriminate.
Qed.

(** ** More on sorted *)

Lemma str_leb_refl (a : str) : str_leb a a = true.
Proof.
  induction a as [|c a IH]; [reflexivity|]. simpl.
  now rewrite N.compare_refl.
Qed.

Lemma str_leb_antisym (a b : str) :
  str_leb a b = true -> str_leb b a = true -> a = b.
Proof.
  revert b; induction a as [|c a IH]; intros [|d b]; simpl; try congruence.
  rewrite (N.compare_antisym c d).
  destruct (N.compare c d) eqn:E; simpl; try congruence.
  apply N.compare_eq in E. intros H1 H2. f_equal; [assumption | now apply IH].
Qed.

Lemma str_leb_trans (a b c : str) :
  str_leb a b = true -> str_leb b c = true -> str_leb a c = true.
Proof.
  revert b c; induction a as [|x a IH]; intros [|y b] [|z c]; simpl;
    try congruence.
  destruct (N.compare x y) eqn:Exy; try congruence.
  - apply N.compare_eq in Exy. subst y.
    destruct (N.compare x z); try congruence. apply IH.
  - intros _. destruct (N.compare y z) eqn:Eyz; try congruence.
    + apply N.compare_eq in Eyz. subst z. now rewrite Exy.
    + intros _. rewrite N.compare_lt_iff in *.
      assert (H : (x < z)%N) by lia.
      apply N.compare_lt_iff in H. now rewrite H.
Qed.

(** A list has one sorted arrangement. *)
Lemma sorted_unique (l l' : list str) :
  Sorted str_le l -> Sorted str_le l' -> Permutation l l' -> l = l'.
Proof.
  intros Hl Hl'.
  apply Sorted_StronglySorted in Hl;
    [|intros a b c; unfold str_le; apply str_leb_trans].
  apply Sorted_StronglySorted in Hl';
    [|intros a b c; unfold str_le; apply str_leb_trans].
  revert l' Hl'. induction Hl as [|x l Hs IH Hx]; intros l' Hl' Hp.
  - apply Permutation_nil in Hp. now subst.
  - destruct Hl' as [|y l' Hs' Hy].
    + apply Permutation_sym, Permutation_nil in Hp. discriminate.
    + assert (Exy : x = y).
      { assert (Hyin : In y (x :: l))
          by (apply Permutation_sym in Hp; eapply Permutation_in;
              [exact Hp | now left]).
        assert (Hxin : In x (y :: l'))
          by (eapply Permutation_in; [exact Hp | now left]).
        destruct Hyin as [E|Hyin]; [assumption|].
        destruct Hxin as [E|Hxin]; [now symmetry|].
        rewrite Forall_forall in Hx, Hy.
        apply str_leb_antisym; [now apply Hx | now apply Hy]. }
      subst y. f_equal. apply IH; [assumption|].
      eapply Permutation_cons_inv. exact Hp.
Qed.

Lemma sorted_permutation (l l' : list str) :
  Permutation l l' -> sorted l = sorted l'.
Proof.
  intros H. destruct (sorted_spec l) as [Hp Hs].
  destruct (sorted_spec l') as [Hp' Hs'].
  apply sorted_unique; try assumption.
  rewrite Hp, H. now symmetry.
Qed.

Lemma sorted_fixpoint (l : list str) : Sorted str_le l -> sorted l = l.
Proof.
  intros H. destruct (sorted_spec l) as [Hp Hs]. now apply sorted_unique.
Qed.

(** ** More on fetchTokenInfo *)

(** X1: [fetchTokenInfo] returns exactly when the record has the keys
    [name], [oracle_text], [type_line], [colors] and [image_uris] with
    [large] in it, and then name, text, type line and image are handed over
    as they are. *)
Theorem fetchTokenInfo_ok_iff (sf : sf_entry) :
  ((exists info, fetchTokenInfo sf = Ok info) <->
   name sf <> None /\ oracle_text sf <> None /\ type_line sf <> None
   /\ colors sf <> None /\ large_image sf <> None)
  /\ (forall info,
        fetchTokenInfo sf = Ok info ->
        name sf = Some (token_name info)
        /\ oracle_text sf = Some (token_text info)
        /\ type_line sf = Some (token_type info)
        /\ large_image sf = Some (token_image info)).
Proof.
  split.
  - split.
    + intros [info H].
      destruct (fetchTokenInfo_inv _ H)
        as [nm [tx [ty [cs [img [Hn [Ht [Hy [Hc [Hi _]]]]]]]]]].
      unfold large_image. rewrite Hn, Ht, Hy, Hc, Hi.
      repeat split; discriminate.
    + unfold large_image. intros [Hn [Ht [Hy [Hc Hi]]]].
      destruct (name sf) as [nm|] eqn:En; [|congruence].
      destruct (oracle_text sf) as [tx|] eqn:Et; [|congruence].
      destruct (type_line sf) as [ty|] eqn:Ey; [|congruence].
      destruct (colors sf) as [cs|] eqn:Ec; [|congruence].
      destruct (image_uris sf) as [[img|]|] eqn:Ei; try congruence.
      destruct (fetchTokenInfo_ok sf En Et Ey Ec Ei) as [pt H].
      eexists. exact H.
  - intros info H.
    destruct (fetchTokenInfo_inv _ H)
      as [nm [tx [ty [cs [img [Hn [Ht [Hy [Hc [Hi [E1 [E2 [E3 [_ E5]]]]]]]]]]]]]].
    unfold large_image. rewrite Hn, Ht, Hy, Hi. subst. repeat split.
Qed.

Lemma fetchTokenInfo_ok_iff_witness :
  name spirit_card = Some (lit "Spirit")
  /\ large_image spirit_card = Some (lit "https://x/spirit.png").
Proof.
  destruct (fetchTokenInfo_ok_iff spirit_card) as [_ H].
  destruct (H _ eq_refl) as [H1 [_ [_ H4]]]. split; [exact H1 | exact H4].
Defined.

(** X2: the colors of the normalized record are those of the raw record in
    ascending order, and records whose colors differ in order only are
    normalized to the same colors. *)
Theorem fetchTokenInfo_colors (sf : sf_entry) (info : token_info)
    (cs : list str) :
  fetchTokenInfo sf = Ok info -> colors sf = Some cs ->
  Sorted str_le (token_colors info)
  /\ Permutation (token_colors info) cs
  /\ forall sf' info' cs',
      fetchTokenInfo sf' = Ok info' -> colors sf' = Some cs' ->
      Permutation cs cs' -> token_colors info' = token_colors info.
Proof.
  intros H Hc.
  destruct (fetchTokenInfo_inv _ H)
    as [nm [tx [ty [cs0 [img [_ [_ [_ [Hc0 [_ [_ [_ [_ [Hs _]]]]]]]]]]]]]].
  rewrite Hc in Hc0. injection Hc0 as <-. rewrite Hs.
  destruct (sorted_spec cs) as [Hp Hso]. repeat split; try assumption.
  intros sf' info' cs' H' Hc' Hperm.
  destruct (fetchTokenInfo_inv _ H')
    as [nm' [tx' [ty' [cs1 [img' [_ [_ [_ [Hc1 [_ [_ [_ [_ [Hs' _]]]]]]]]]]]]]].
  rewrite Hc' in Hc1. injection Hc1 as <-. rewrite Hs'.
  symmetry. now apply sorted_permutation.
Qed.

Lemma fetchTokenInfo_colors_witness :
  exists info,
    fetchTokenInfo (bird_card [lit "W"; lit "U"]) = Ok info
    /\ Sorted str_le (token_colors info)
    /\ fetchTokenInfo (bird_card [lit "U"; lit "W"]) = Ok info.
Proof.
  destruct (fetchTokenInfo (bird_card [lit "W"; lit "U"])) as [info|e] eqn:H;
    [|discriminate].
  destruct (@fetchTokenInfo_colors _ _ [lit "W"; lit "U"] H eq_refl)
    as [Hs [_ Hp]].
  exists info. split; [reflexivity|]. split; [exact Hs|].
  vm_compute in H. injection H as <-. reflexivity.
Defined.

(** ** More on createXmlEntry *)

Lemma prop_children_type (info : token_info) :
  filter (has_tag (lit "type")) (prop_children info)
  = [leaf "type" (token_type info)].
Proof.
  unfold prop_children.
  destruct (negb (strs_eqb (token_colors info) []));
    destruct (negb (in_list (token_type info) SHORT_TAG_LIST));
    destruct (negb (str_eqb (token_pt info) []));
    reflexivity.
Qed.

Lemma prop_children_colors (info : token_info) :
  filter (has_tag (lit "colors")) (prop_children info)
  = if strs_eqb (token_colors info) [] then []
    else [leaf "colors" (join (token_colors info))].
Proof.
  unfold prop_children.
  destruct (strs_eqb (token_colors info) []);
    destruct (negb (in_list (token_type info) SHORT_TAG_LIST));
    destruct (negb (str_eqb (token_pt info) []));
    reflexivity.
Qed.

Lemma prop_children_pt (info : token_info) :
  filter (has_tag (lit "pt")) (prop_children info)
  = if str_eqb (token_pt info) [] then []
    else [leaf "pt" (token_pt info)].
Proof.
  unfold prop_children.
  destruct (negb (strs_eqb (token_colors info) []));
    destruct (negb (in_list (token_type info) SHORT_TAG_LIST));
    destruct (str_eqb (token_pt info) []);
    reflexivity.
Qed.

Lemma name_text_suffix (info : token_info) (ty : str) :
  name_text info ty = token_name info
  \/ name_text info ty = token_name info ++ lit " Token".
Proof.
  unfold name_text.
  destruct (nth_error (split SUBTYPE_SEP ty) 1) as [subtype|]; [|now left].
  destruct (str_eqb subtype (token_name info)); [now right | now left].
Qed.

Lemma chars_join_single (cs : list str) :
  Forall (fun c => List.length c = 1) cs -> chars (join cs) = cs.
Proof.
  induction 1 as [|c cs Hc _ IH]; [reflexivity|].
  destruct c as [|x [|y c]]; try discriminate.
  unfold join in *. cbn [List.concat app chars map]. f_equal. exact IH.
Qed.

Lemma fetchTokenInfo_pt (sf : sf_entry) (info : token_info) :
  fetchTokenInfo sf = Ok info ->
  token_pt info
  = match power sf, toughness sf with
    | Some p, Some t => p ++ lit "/" ++ t
    | _, _ => []
    end.
Proof.
  unfold fetchTokenInfo.
  destruct (name sf); [|discriminate].
  destruct (oracle_text sf); [|discriminate].
  destruct (type_line sf); [|discriminate].
  destruct (colors sf); [|discriminate].
  destruct (image_uris sf) as [[img|]|]; [|discriminate..].
  cbn [subscript bind]. intros H. injection H as <-. reflexivity.
Qed.

Section SynthesizerMore.

Variable upper : str -> str.

Lemma createXmlEntry_text (info : token_info) (set_code : str) :
  find (createXmlEntry upper info set_code) (lit "text")
  = if str_eqb (token_text info) [] then None
    else Some (leaf "text" (token_text info)).
Proof.
  unfold find, createXmlEntry. cbv zeta.
  destruct (str_eqb (token_text info) []);
    destruct (contains (lit "transform") (token_text info)
              || contains (lit "Transform") (token_text info));
    reflexivity.
Qed.

Lemma createXmlEntry_set (info : token_info) (set_code : str) :
  filter (has_tag (lit "set")) (children (createXmlEntry upper info set_code))
  = [set_line upper info set_code].
Proof.
  unfold createXmlEntry. cbv zeta.
  destruct (negb (str_eqb (token_text info) []));
    destruct (contains (lit "transform") (token_text info)
              || contains (lit "Transform") (token_text info));
    reflexivity.
Qed.

Lemma createXmlEntry_tail (info : token_info) (set_code : str) :
  find (createXmlEntry upper info set_code) (lit "related")
  = (if contains (lit "transform") (token_text info)
        || contains (lit "Transform") (token_text info)
     then Some (leaf "related" []) else None)
  /\ find (createXmlEntry upper info set_code) (lit "reverse-related")
     = Some (leaf "reverse-related" [])
  /\ find (createXmlEntry upper info set_code) (lit "token")
     = Some (leaf "token" (lit "1"))
  /\ find (createXmlEntry upper info set_code) (lit "tablerow")
     = Some (leaf "tablerow"
               (if str_eqb (maintype_text (token_type info)) (lit "Creature")
                then lit "2" else lit "1")).
Proof.
  unfold find, createXmlEntry. cbv zeta.
  generalize (str_eqb (maintype_text (token_type info)) (lit "Creature")).
  intros b.
  destruct (negb (str_eqb (token_text info) []));
    destruct (contains (lit "transform") (token_text info)
              || contains (lit "Transform") (token_text info));
    repeat split.
Qed.

Lemma createXmlEntry_comparable (info : token_info) (set_code : str) :
  comparable (createXmlEntry upper info set_code).
Proof.
  unfold comparable, find_path.
  rewrite createXmlEntry_name, createXmlEntry_prop, prop_children_type.
  split; discriminate.
Qed.

(** X3: the entry has a [text] child, a [prop/colors] and a [prop/pt]
    element exactly when the record's text, colors and power/toughness are
    not empty; they hold the text, the color codes joined, and the
    power/toughness. *)
Theorem createXmlEntry_optional (info : token_info) (set_code : str) :
  (token_text info = [] ->
   find (createXmlEntry upper info set_code) (lit "text") = None)
  /\ (token_text info <> [] ->
      find (createXmlEntry upper info set_code) (lit "text")
      = Some (leaf "text" (token_text info)))
  /\ (token_colors info = [] ->
      find_path (createXmlEntry upper info set_code) (lit "prop") (lit "colors")
      = None)
  /\ (token_colors info <> [] ->
      find_path (createXmlEntry upper info set_code) (lit "prop") (lit "colors")
      = Some (leaf "colors" (join (token_colors info))))
  /\ (token_pt info = [] ->
      find_path (createXmlEntry upper info set_code) (lit "prop") (lit "pt")
      = None)
  /\ (token_pt info <> [] ->
      find_path (createXmlEntry upper info set_code) (lit "prop") (lit "pt")
      = Some (leaf "pt" (token_pt info))).
Proof.
  rewrite createXmlEntry_text. unfold find_path.
  rewrite !createXmlEntry_prop, prop_children_colors, prop_children_pt.
  repeat split; intros H.
  - apply str_eqb_eq in H. now rewrite H.
  - apply str_eqb_neq in H. now rewrite H.
  - apply strs_eqb_eq in H. now rewrite H.
  - destruct (strs_eqb (token_colors info) []) eqn:E; [|reflexivity].
    apply strs_eqb_eq in E. contradiction.
  - apply str_eqb_eq in H. now rewrite H.
  - apply str_eqb_neq in H. now rewrite H.
Qed.

(** X4: the entry has a [prop/pt] element exactly when the raw record has
    both [power] and [toughness], and its text is power, a slash,
    toughness: the slash makes it non-empty even when both are empty. *)
Theorem pt_iff_power_and_toughness (sf : sf_entry) (info : token_info)
    (set_code : str) :
  fetchTokenInfo sf = Ok info ->
  find_path (createXmlEntry upper info set_code) (lit "prop") (lit "pt")
  = match power sf, toughness sf with
    | Some p, Some t => Some (leaf "pt" (p ++ lit "/" ++ t))
    | _, _ => None
    end.
Proof.
  intros H. unfold find_path. rewrite createXmlEntry_prop, prop_children_pt.
  rewrite (fetchTokenInfo_pt _ H).
  destruct (power sf) as [p|]; [|reflexivity].
  destruct (toughness sf) as [t|]; [|reflexivity].
  destruct (str_eqb (p ++ lit "/" ++ t) []) eqn:E; [|reflexivity].
  apply str_eqb_eq in E. apply app_eq_nil in E as [_ E]. discriminate.
Qed.

(** X5: the name of the entry is the record's name or the record's name
    followed by " Token"; the entry has exactly one [set] line, with the
    record's image as [picURL] and the uppercased set code as text. *)
Theorem createXmlEntry_name_and_set (info : token_info) (set_code : str) :
  (find (createXmlEntry upper info set_code) (lit "name")
   = Some (leaf "name" (token_name info))
   \/ find (createXmlEntry upper info set_code) (lit "name")
      = Some (leaf "name" (token_name info ++ lit " Token")))
  /\ filter (has_tag (lit "set")) (children (createXmlEntry upper info set_code))
     = [Element (lit "set") [(lit "picURL", token_image info)]
                (Some (upper set_code)) []].
Proof.
  rewrite createXmlEntry_name, createXmlEntry_set. split; [|reflexivity].
  destruct (name_text_suffix info (token_type info)) as [-> | ->];
    [now left | now right].
Qed.

(** X6: the table row is "2" exactly when the type line has "Creature" and
    neither "Emblem" nor "Dungeon" in it, and "1" otherwise. *)
Theorem tablerow_two_iff_creature (info : token_info) (set_code : str) :
  (find (createXmlEntry upper info set_code) (lit "tablerow")
   = Some (leaf "tablerow" (lit "2"))
   <-> contains (lit "Creature") (token_type info) = true
       /\ contains (lit "Emblem") (token_type info) = false
       /\ contains (lit "Dungeon") (token_type info) = false)
  /\ (find (createXmlEntry upper info set_code) (lit "tablerow")
      = Some (leaf "tablerow" (lit "2"))
      \/ find (createXmlEntry upper info set_code) (lit "tablerow")
         = Some (leaf "tablerow" (lit "1"))).
Proof.
  destruct (createXmlEntry_tail info set_code) as [_ [_ [_ ->]]].
  unfold maintype_text.
  destruct (contains (lit "Emblem") (token_type info));
    [split; [split; [discriminate | intros [_ [H _]]; discriminate]
            |now right]|].
  destruct (contains (lit "Dungeon") (token_type info));
    [split; [split; [discriminate | intros [_ [_ H]]; discriminate]
            |now right]|].
  destruct (contains (lit "Creature") (token_type info));
    [split; [split; [now intros _ | reflexivity] | now left]|].
  split; [|destruct (contains (lit "Artifact") (token_type info));
           [|destruct (contains (lit "Enchantment") (token_type info))];
           now right].
  split; [|intros [H _]; discriminate].
  destruct (contains (lit "Artifact") (token_type info)); [discriminate|].
  destruct (contains (lit "Enchantment") (token_type info)); discriminate.
Qed.

(** X7: the entry has a [related] child, empty, exactly when the record's
    text has "transform" or "Transform" in it; it always has an empty
    [reverse-related] child and a [token] child with text "1". *)
Theorem related_iff_transform (info : token_info) (set_code : str) :
  (find (createXmlEntry upper info set_code) (lit "related")
   = Some (leaf "related" [])
   <-> contains (lit "transform") (token_text info) = true
       \/ contains (lit "Transform") (token_text info) = true)
  /\ (find (createXmlEntry upper info set_code) (lit "related") = None
      <-> contains (lit "transform") (token_text info) = false
          /\ contains (lit "Transform") (token_text info) = false)
  /\ find (createXmlEntry upper info set_code) (lit "reverse-related")
     = Some (leaf "reverse-related" [])
  /\ find (createXmlEntry upper info set_code) (lit "token")
     = Some (leaf "token" (lit "1")).
Proof.
  destruct (createXmlEntry_tail info set_code) as [-> [-> [-> _]]].
  destruct (contains (lit "transform") (token_text info));
    destruct (contains (lit "Transform") (token_text info)); cbn [orb];
    repeat split; try discriminate; auto;
    try (intros [H|H]; discriminate); try (intros [H1 H2]; discriminate).
Qed.

(** X8: the entry made for a normalized record matches that record, when
    the record's color codes are single characters: it is found as a reprint
    once it is in the catalog. *)
Theorem created_entry_matches_record (sf : sf_entry) (info : token_info)
    (set_code : str) :
  fetchTokenInfo sf = Ok info ->
  Forall (fun c => List.length c = 1) (token_colors info) ->
  card_matches (createXmlEntry upper info set_code) info = Ok true.
Proof.
  intros H Hsingle. apply card_matches_spec.
  unfold name_prefixed, same_text, same_type, same_colors, same_pt,
    findtext, findtext_path, find_path.
  rewrite createXmlEntry_name, createXmlEntry_text, !createXmlEntry_prop,
    prop_children_type, prop_children_colors, prop_children_pt.
  repeat split.
  - destruct (name_text_suffix info (token_type info)) as [E|E].
    + exists (token_name info), []. rewrite E, app_nil_r. now split.
    + exists (token_name info ++ lit " Token"), (lit " Token").
      rewrite E. now split.
  - destruct (str_eqb (token_text info) []) eqn:E; [|reflexivity].
    apply str_eqb_eq in E. now rewrite E.
  - eexists. split; reflexivity.
  - destruct (strs_eqb (token_colors info) []) eqn:E.
    + apply strs_eqb_eq in E. now rewrite E.
    + cbn [hd_error option_map or_empty text_or_empty text leaf].
      rewrite (chars_join_single Hsingle). apply sorted_fixpoint.
      destruct (fetchTokenInfo_inv _ H)
        as [nm [tx [ty [cs [img [_ [_ [_ [_ [_ [_ [_ [_ [Hs _]]]]]]]]]]]]]].
      rewrite Hs. apply sorted_spec.
  - destruct (str_eqb (token_pt info) []) eqn:E; [|reflexivity].
    apply str_eqb_eq in E. now rewrite E.
Qed.

End SynthesizerMore.

(** ** More on the match condition *)

Lemma card_matches_raises_on (c : element) (info : token_info) :
  card_matches c info
  = if raises_on c info then Raise AttributeError else Ok (is_match c info).
Proof.
  unfold is_match. rewrite card_matches_unfold. unfold raises_on.
  destruct (findtext c (lit "name")) as [nm|]; [|reflexivity].
  destruct (startswith nm (token_name info)); cbn [negb andb]; [|reflexivity].
  destruct (str_eqb (or_empty (findtext c (lit "text"))) (token_text info));
    cbn [negb andb]; [|reflexivity].
  destruct (find_path c (lit "prop") (lit "type")) as [ty|];
    cbn [iselement negb]; [|reflexivity].
  repeat match goal with
         | |- context [if negb ?b then _ else _] => destruct b; cbn [negb]
         end; try reflexivity.
  now destruct (str_eqb _ (token_pt info)).
Qed.

Lemma evaluates_raises_on (c : element) (info : token_info) :
  evaluates c info <-> raises_on c info = false.
Proof.
  unfold evaluates. rewrite card_matches_raises_on.
  destruct (raises_on c info); split; try congruence.
  - intros [b H]. discriminate.
  - intros _. eexists. reflexivity.
Qed.

(** X9: a record under a shorter name matches at least the same entries:
    when an entry matches a record, it matches the record renamed to any
    prefix of its name, the empty name included. *)
Theorem card_matches_shorter_name (c : element) (info : token_info) (nm : str) :
  card_matches c info = Ok true ->
  startswith (token_name info) nm = true ->
  card_matches c (with_name info nm) = Ok true
  /\ card_matches c (with_name info []) = Ok true.
Proof.
  intros H Hp. apply card_matches_spec in H as [[n0 [sfx [Hn E]]] [Ht [Hy [Hc Hpt]]]].
  apply startswith_prefix in Hp as [r Hr].
  split; apply card_matches_spec; repeat split; try assumption.
  - exists n0, (r ++ sfx). split; [assumption|].
    cbn [with_name token_name]. rewrite app_assoc, <- Hr. exact E.
  - exists n0, n0. now split.
Qed.

(** X10: the colors of an entry are compared without regard to their order:
    two entries with the same name, text, type and power/toughness, whose
    colors are the same characters in another order, match the same
    records. *)
Theorem card_matches_colors_order (c c' : element) (info : token_info) :
  findtext c (lit "name") = findtext c' (lit "name") ->
  findtext c (lit "text") = findtext c' (lit "text") ->
  find_path c (lit "prop") (lit "type") = find_path c' (lit "prop") (lit "type") ->
  findtext_path c (lit "prop") (lit "pt")
  = findtext_path c' (lit "prop") (lit "pt") ->
  Permutation (or_empty (findtext_path c (lit "prop") (lit "colors")))
              (or_empty (findtext_path c' (lit "prop") (lit "colors"))) ->
  card_matches c info = card_matches c' info.
Proof.
  intros Hn Ht Hy Hpt Hc. rewrite !card_matches_unfold.
  rewrite Hn, Ht, Hy, Hpt.
  rewrite (sorted_permutation
             (Permutation_map (fun ch => [ch]) Hc : Permutation (chars _) (chars _))).
  reflexivity.
Qed.

(** ** More on xmlMatch *)

Lemma skipn_insert (A : Type) (i : nat) (x : A) (l : list A) :
  i <= List.length l ->
  skipn i (firstn i l ++ x :: skipn i l) = x :: skipn i l.
Proof.
  intros Hi.
  assert (Hlen : List.length (firstn i l) = i) by (rewrite length_firstn; lia).
  rewrite skipn_app, Hlen, Nat.sub_diag.
  rewrite (@skipn_all2 _ i (firstn i l)) by lia. reflexivity.
Qed.

Lemma in_findall_cards (root p c : element) :
  In p (children root) -> has_tag (lit "cards") p = true ->
  In c (children p) -> In c (findall_cards root).
Proof.
  intros Hp Ht Hc. unfold findall_cards. apply in_flat_map.
  exists p. split; [|assumption]. apply filter_In. now split.
Qed.

Lemma set_line_count_insert (i : nat) (new c : element) :
  has_tag (lit "set") new = true ->
  set_line_count (insert_child i new c) = S (set_line_count c).
Proof.
  intros H. unfold set_line_count, insert_child. cbn [children].
  rewrite filter_app. cbn [filter]. rewrite H.
  rewrite length_app. cbn [List.length].
  rewrite Nat.add_succ_r, <- length_app, <- filter_app.
  now rewrite firstn_skipn.
Qed.

Lemma filter_none (A : Type) (f : A -> bool) (l : list A) :
  (forall x, In x l -> f x = false) -> filter f l = [].
Proof.
  induction l as [|x l IH]; intros H; [reflexivity|].
  cbn [filter]. rewrite (H x (or_introl eq_refl)).
  apply IH. intros y Hy. apply H. now right.
Qed.

Lemma list_sum_step (x : nat) (l : list nat) :
  list_sum (x :: l) = x + list_sum l.
Proof. reflexivity. Qed.

Section MatcherMore.

Variable upper : str -> str.

Lemma amend_card_id (info : token_info) (set_code : str) (c : element) :
  is_match c info = false -> amend_card upper info set_code c = c.
Proof. unfold amend_card. now intros ->. Qed.

Lemma amend_root_id (info : token_info) (set_code : str) (root : element) :
  (forall c, In c (findall_cards root) -> is_match c info = false) ->
  amend_root upper info set_code root = root.
Proof.
  intros H. unfold amend_root.
  rewrite <- (element_eta root) at 5. f_equal.
  rewrite <- (map_id (children root)) at 2.
  apply map_ext_in. intros p Hp. unfold amend_child.
  destruct (has_tag (lit "cards") p) eqn:Ht; [|reflexivity].
  rewrite <- (element_eta p) at 5. f_equal.
  rewrite <- (map_id (children p)) at 2.
  apply map_ext_in. intros c Hc. apply amend_card_id.
  apply H. eapply in_findall_cards; eassumption.
Qed.

(** X12: when [xmlMatch] returns [False] the catalog and the counter are
    as they were before the call. *)
Theorem xmlMatch_false_unchanged (root root' : element) (info : token_info)
    (set_code : str) (n n' : nat) :
  xmlMatch upper root info set_code n = Ok (root', false, n') ->
  root' = root /\ n' = n.
Proof.
  intros H. pose proof (@xmlMatch_inv _ _ _ _ _ _ H) as Hev.
  rewrite (@xmlMatch_ok upper info set_code root n Hev) in H.
  injection H as <- Hf <-.
  assert (Hno : forall c, In c (findall_cards root) -> is_match c info = false).
  { intros c Hc. destruct (is_match c info) eqn:E; [|reflexivity].
    assert (existsb (fun c => is_match c info) (findall_cards root) = true)
      by (apply existsb_exists; now exists c).
    congruence. }
  split; [now apply amend_root_id|].
  rewrite (filter_none _ _ Hno). cbn. lia.
Qed.

Lemma set_line_count_amend (info : token_info) (set_code : str) (c : element) :
  set_line_count (amend_card upper info set_code c)
  = set_line_count c + (if is_match c info then 1 else 0).
Proof.
  unfold amend_card, add_set_line.
  destruct (is_match c info); [|lia].
  destruct (iselement (find c (lit "text")));
    rewrite set_line_count_insert by reflexivity; lia.
Qed.

Lemma xmlMatch_adds_set_lines (root root' : element) (info : token_info)
    (set_code : str) (n n' : nat) (match_found : bool) :
  xmlMatch upper root info set_code n = Ok (root', match_found, n') ->
  n <= n' /\ set_lines root' = set_lines root + (n' - n).
Proof.
  intros H. pose proof (@xmlMatch_inv _ _ _ _ _ _ H) as Hev.
  rewrite (@xmlMatch_ok upper info set_code root n Hev) in H.
  injection H as <- _ <-. split; [lia|].
  unfold set_lines. rewrite findall_cards_amend.
  replace (n + List.length (filter (fun c => is_match c info) (findall_cards root)) - n)
    with (List.length (filter (fun c => is_match c info) (findall_cards root)))
    by lia.
  clear Hev. induction (findall_cards root) as [|c es IH]; [reflexivity|].
  cbn [map filter]. rewrite !list_sum_step, set_line_count_amend, IH.
  destruct (is_match c info); cbn [List.length]; lia.
Qed.

Lemma xmlMatch_same_count (root root' : element) (info : token_info)
    (set_code : str) (n : nat) (match_found : bool) :
  xmlMatch upper root info set_code n = Ok (root', match_found, n) ->
  root' = root.
Proof.
  intros H. pose proof (@xmlMatch_inv _ _ _ _ _ _ H) as Hev.
  rewrite (@xmlMatch_ok upper info set_code root n Hev) in H.
  injection H as <- _ Hn.
  apply amend_root_id. intros c Hc.
  destruct (is_match c info) eqn:E; [|reflexivity].
  assert (Hin : In c (filter (fun c => is_match c info) (findall_cards root)))
    by (apply filter_In; now split).
  destruct (filter (fun c => is_match c info) (findall_cards root));
    [destruct Hin | cbn in Hn; lia].
Qed.

(** X13: a call of [xmlMatch] that returns adds as many [set] lines to the
    entries of the catalog as it adds to the counter. *)
Theorem xmlMatch_set_lines (root root' : element) (info : token_info)
    (set_code : str) (n n' : nat) (match_found : bool) :
  xmlMatch upper root info set_code n = Ok (root', match_found, n') ->
  n <= n' /\ set_lines root' = set_lines root + (n' - n).
Proof. apply xmlMatch_adds_set_lines. Qed.

End MatcherMore.

Lemma same_entry_add_set_line (upper : str -> str) (c : element)
    (info : token_info) (set_code : str) :
  same_entry c (add_set_line upper c info set_code).
Proof.
  unfold same_entry, add_set_line.
  assert (H : forall i,
             nonset c = nonset (insert_child i (set_line upper info set_code) c)).
  { intros i. unfold nonset, insert_child. cbn [children].
    rewrite filter_app. cbn [filter].
    change (negb (has_tag (lit "set") (set_line upper info set_code)))
      with false.
    cbn iota. rewrite <- filter_app. now rewrite firstn_skipn. }
  destruct (iselement (find c (lit "text"))); apply H.
Qed.

Lemma add_set_line_twice (upper : str -> str) (c : element)
    (info1 info2 : token_info) (code1 code2 : str) :
  is_match c info1 = true ->
  children (add_set_line upper (add_set_line upper c info1 code1) info2 code2)
  = firstn (set_index c) (children c)
    ++ set_line upper info2 code2 :: set_line upper info1 code1
    :: skipn (set_index c) (children c).
Proof.
  intros Hm.
  pose proof (add_set_line_inserted upper c info1 code1 Hm)
    as [_ [_ [_ [Hle _]]]].
  fold (set_index c) in Hle.
  unfold add_set_line at 1.
  rewrite <- (same_entry_find (t := lit "text")
                (same_entry_add_set_line upper c info1 code1))
    by discriminate.
  fold (set_index c).
  assert (E : children (add_set_line upper c info1 code1)
              = firstn (set_index c) (children c)
                ++ set_line upper info1 code1 :: skipn (set_index c) (children c)).
  { unfold add_set_line, set_index.
    now destruct (iselement (find c (lit "text"))). }
  assert (E2 : forall x,
             children (if iselement (find c (lit "text"))
                       then insert_child 3 (set_line upper info2 code2) x
                       else insert_child 2 (set_line upper info2 code2) x)
             = firstn (set_index c) (children x)
               ++ set_line upper info2 code2 :: skipn (set_index c) (children x)).
  { intros x. unfold set_index.
    now destruct (iselement (find c (lit "text"))). }
  rewrite E2, E.
  destruct (@insert_at_spec _ (set_index c) (set_line upper info1 code1)
              (children c) Hle) as [_ [Hf _]].
  rewrite Hf. now rewrite (skipn_insert _ _ Hle).
Qed.

Section MatcherTwice.

Variable upper : str -> str.

(** X14: two calls of [xmlMatch] in a row.  The second call matches as it
    would on the catalog before the first: the [set] line that the first
    inserted plays no part.  An entry that matches both records has the two
    new lines at the insertion index, the later one first; so matching the
    same record twice counts it twice and leaves two lines. *)
Theorem xmlMatch_twice (root root1 root2 : element) (info1 info2 : token_info)
    (code1 code2 : str) (n n1 n2 : nat) (found1 found2 : bool) :
  xmlMatch upper root info1 code1 n = Ok (root1, found1, n1) ->
  xmlMatch upper root1 info2 code2 n1 = Ok (root2, found2, n2) ->
  found2 = existsb (fun c => is_match c info2) (findall_cards root)
  /\ n2 = n1 + List.length (filter (fun c => is_match c info2) (findall_cards root))
  /\ Forall2
       (fun c c2 =>
          is_match c info1 = true -> is_match c info2 = true ->
          children c2
          = firstn (set_index c) (children c)
            ++ set_line upper info2 code2 :: set_line upper info1 code1
            :: skipn (set_index c) (children c))
       (findall_cards root) (findall_cards root2).
Proof.
  intros H1 H2.
  pose proof (@xmlMatch_same_catalog _ _ _ _ _ _ _ _ H1) as Hsame.
  pose proof (@xmlMatch_inv _ _ _ _ _ _ H1) as Hev1.
  rewrite (@xmlMatch_ok upper info1 code1 root n Hev1) in H1.
  injection H1 as <- _ _.
  pose proof (@xmlMatch_inv _ _ _ _ _ _ H2) as Hev2.
  rewrite (@xmlMatch_ok upper info2 code2 _ n1 Hev2) in H2.
  injection H2 as <- <- <-.
  destruct (same_entries_matches info2 Hsame) as [_ [Hex Hlen]].
  split; [now rewrite Hex|]. split; [now rewrite Hlen|].
  rewrite !findall_cards_amend, map_map.
  apply Forall2_map_same. intros c _ Hm1 Hm2.
  unfold amend_card at 2. rewrite Hm1. unfold amend_card.
  rewrite <- (same_entry_is_match info2
                (same_entry_add_set_line upper c info1 code1)).
  rewrite Hm2. now apply add_set_line_twice.
Qed.

End MatcherTwice.

(** ** The loop of updateTokenXML: what it counts *)

Lemma same_catalog_sym (r r' : element) : same_catalog r r' -> same_catalog r' r.
Proof.
  unfold same_catalog. induction 1; constructor; [|assumption].
  unfold same_entry in *. congruence.
Qed.

Lemma same_catalog_tally (r r' : element) (info : token_info) :
  same_catalog r r' ->
  (evaluates_all r info -> evaluates_all r' info)
  /\ unmatched r info = unmatched r' info
  /\ matches_of r info = matches_of r' info.
Proof.
  intros H. unfold evaluates_all, unmatched, matches_of.
  destruct (same_entries_matches info H) as [H1 [H2 H3]].
  repeat split; [assumption | now rewrite H2 | assumption].
Qed.

Section Tally.

Variable upper : str -> str.
Variable set_code : str.
Variable root : element.

Lemma tallied_nil (st : sync_state) :
  same_catalog root (xml_root st) ->
  tallied upper set_code root st [] 0 st.
Proof.
  intros H. unfold tallied. cbn.
  rewrite app_nil_r, !Nat.add_0_r. repeat split; [assumption | constructor].
Qed.

Lemma tallied_app (st st1 st2 : sync_state) (a b : list token_info)
    (j k : nat) :
  tallied upper set_code root st a j st1 ->
  tallied upper set_code root st1 b k st2 ->
  tallied upper set_code root st (a ++ b) (j + k) st2.
Proof.
  intros [_ [Ha [Hr [Hc [Hn Hd]]]]] [Hs [Hb [Hr' [Hc' [Hn' Hd']]]]].
  unfold tallied. rewrite filter_app, !map_app, list_sum_app, length_app.
  repeat split.
  - assumption.
  - apply Forall_app. now split.
  - lia.
  - rewrite Hc', Hc. now rewrite app_assoc.
  - lia.
  - lia.
Qed.

Lemma match_or_create_tallied (st st1 : sync_state) (info : token_info) :
  same_catalog root (xml_root st) ->
  match_or_create upper set_code st info = Ok st1 ->
  tallied upper set_code root st [info] 0 st1.
Proof.
  intros Hs H. unfold match_or_create in H.
  destruct (xmlMatch upper (xml_root st) info set_code (reprint_count st))
    as [[[r1 found] n1]|] eqn:Hx; [|discriminate].
  pose proof (@xmlMatch_same_catalog _ _ _ _ _ _ _ _ Hx) as Hsame.
  pose proof (@xmlMatch_inv _ _ _ _ _ _ Hx) as Hev.
  rewrite (@xmlMatch_ok upper info set_code _ _ Hev) in Hx.
  injection Hx as <- <- <-.
  destruct (same_catalog_tally info Hs) as [_ [Hu Hm]].
  destruct (same_catalog_tally info (same_catalog_sym Hs)) as [Hev' _].
  fold (matches_of (xml_root st) info) in H.
  assert (Hf : negb (existsb (fun c => is_match c info)
                             (findall_cards (xml_root st)))
               = unmatched root info) by (now rewrite Hu).
  cbn [bind] in H. rewrite Hf, <- Hm in H.
  unfold tallied. cbn [map filter list_sum].
  destruct (unmatched root info); injection H as <-;
    cbn [xml_root cards new_token_count double_faced_count reprint_count
         map List.length];
    repeat split;
    try (eapply same_catalog_trans; eassumption);
    try (constructor; [now apply Hev' | constructor]);
    try lia; try (now rewrite app_nil_r);
    try (rewrite list_sum_step; cbn [list_sum fold_right]; lia).
Qed.

Lemma match_or_create_returns (st : sync_state) (info : token_info) :
  same_catalog root (xml_root st) -> evaluates_all root info ->
  exists st1, match_or_create upper set_code st info = Ok st1.
Proof.
  intros Hs Hev. unfold match_or_create.
  destruct (same_catalog_tally info Hs) as [Hev' _].
  rewrite (@xmlMatch_ok upper info set_code _ _ (Hev' Hev)). cbn [bind].
  destruct (negb _); eexists; reflexivity.
Qed.

Lemma sync_faces_tallied (faces : list sf_entry) (st st1 : sync_state) :
  same_catalog root (xml_root st) ->
  sync_faces upper set_code st faces = Ok st1 ->
  exists infos,
    Forall2 (fun sf info => fetchTokenInfo sf = Ok info) faces infos
    /\ tallied upper set_code root st infos 0 st1.
Proof.
  revert st. induction faces as [|f faces IH]; intros st Hs H.
  - cbn [sync_faces] in H. injection H as <-.
    exists []. split; [constructor | now apply tallied_nil].
  - cbn [sync_faces] in H.
    destruct (fetchTokenInfo f) as [fi|] eqn:Hf; [|discriminate].
    cbn [bind] in H.
    destruct (match_or_create upper set_code st fi) as [st2|] eqn:Hm;
      [|discriminate].
    cbn [bind] in H.
    pose proof (@match_or_create_tallied _ _ _ Hs Hm) as Ht.
    destruct (IH st2 (proj1 Ht) H) as [infos [Hn Ht2]].
    exists (fi :: infos). split; [now constructor|].
    exact (@tallied_app _ _ _ _ _ _ _ Ht Ht2).
Qed.

Lemma sync_faces_returns (faces : list sf_entry) (infos : list token_info)
    (st : sync_state) :
  same_catalog root (xml_root st) ->
  Forall2 (fun sf info => fetchTokenInfo sf = Ok info) faces infos ->
  Forall (evaluates_all root) infos ->
  exists st1, sync_faces upper set_code st faces = Ok st1.
Proof.
  intros Hs Hn. revert st Hs.
  induction Hn as [|f fi faces infos Hf _ IH]; intros st Hs Hev.
  - now exists st.
  - inversion Hev as [|? ? He Hr]; subst.
    cbn [sync_faces]. rewrite Hf. cbn [bind].
    destruct (@match_or_create_returns _ _ Hs He) as [st2 Hm].
    rewrite Hm. cbn [bind].
    apply IH; [|assumption].
    exact (proj1 (@match_or_create_tallied _ _ _ Hs Hm)).
Qed.

Lemma sync_token_tallied (sf : sf_token) (st st1 : sync_state) :
  same_catalog root (xml_root st) ->
  sync_token upper set_code st sf = Ok st1 ->
  token_ok sf
  /\ exists infos,
      Forall2 (fun e info => fetchTokenInfo e = Ok info) (normalized_of sf) infos
      /\ tallied upper set_code root st infos
                 (if is_double_faced sf then 1 else 0) st1.
Proof.
  intros Hs H. unfold sync_token in H.
  unfold token_ok, normalized_of, is_double_faced.
  destruct (layout sf) as [lay|]; [|discriminate].
  cbn [subscript bind] in H.
  destruct (str_eqb lay (lit "double_faced_token")).
  - destruct (card_faces sf) as [faces|]; [|discriminate].
    cbn [subscript bind] in H.
    apply sync_faces_tallied in H as [infos [Hn Ht]]; [|exact Hs].
    split; [split; [discriminate | intros _; discriminate]|].
    exists infos. split; [assumption|].
    destruct Ht as [H1 [H2 [H3 [H4 [H5 H6]]]]].
    unfold tallied. cbn in *. repeat split; try assumption. lia.
  - destruct (fetchTokenInfo (entry sf)) as [fi|] eqn:Hf; [|discriminate].
    cbn [bind] in H.
    split; [split; [discriminate | discriminate]|].
    exists [fi]. split; [repeat constructor; assumption|].
    now apply match_or_create_tallied.
Qed.

Lemma sync_token_returns (sf : sf_token) (infos : list token_info)
    (st : sync_state) :
  same_catalog root (xml_root st) -> token_ok sf ->
  Forall2 (fun e info => fetchTokenInfo e = Ok info) (normalized_of sf) infos ->
  Forall (evaluates_all root) infos ->
  exists st1, sync_token upper set_code st sf = Ok st1.
Proof.
  intros Hs [Hl Hf] Hn Hev. unfold sync_token.
  unfold normalized_of in Hn. unfold is_double_faced in Hf.
  destruct (layout sf) as [lay|]; [|congruence].
  cbn [subscript bind].
  destruct (str_eqb lay (lit "double_faced_token")).
  - destruct (card_faces sf) as [faces|]; [|now destruct (Hf eq_refl)].
    cbn [subscript bind]. eapply sync_faces_returns; eassumption.
  - inversion Hn as [|? fi ? ? Hfi Hnil]; subst. rewrite Hfi. cbn [bind].
    inversion Hev; subst. now apply match_or_create_returns.
Qed.

Lemma sync_tokens_tallied (ts : list sf_token) (st st1 : sync_state) :
  same_catalog root (xml_root st) ->
  sync_tokens upper set_code st ts = Ok st1 ->
  Forall token_ok ts
  /\ exists infos,
      Forall2 (fun e info => fetchTokenInfo e = Ok info)
              (flat_map normalized_of ts) infos
      /\ tallied upper set_code root st infos
                 (List.length (filter is_double_faced ts)) st1.
Proof.
  revert st. induction ts as [|sf ts IH]; intros st Hs H.
  - cbn [sync_tokens] in H. injection H as <-.
    split; [constructor|]. exists [].
    split; [constructor | now apply tallied_nil].
  - cbn [sync_tokens] in H.
    destruct (sync_token upper set_code st sf) as [st2|] eqn:Hm; [|discriminate].
    cbn [bind] in H.
    destruct (@sync_token_tallied _ _ _ Hs Hm) as [Hok [a [Ha Hta]]].
    destruct (IH st2 (proj1 Hta) H) as [Hoks [b [Hb Htb]]].
    split; [now constructor|].
    exists (a ++ b). split; [cbn [flat_map]; now apply Forall2_app|].
    pose proof (@tallied_app _ _ _ _ _ _ _ Hta Htb) as Ht.
    cbn [filter]. destruct (is_double_faced sf); exact Ht.
Qed.

Lemma sync_tokens_returns (ts : list sf_token) (infos : list token_info)
    (st : sync_state) :
  same_catalog root (xml_root st) -> Forall token_ok ts ->
  Forall2 (fun e info => fetchTokenInfo e = Ok info)
          (flat_map normalized_of ts) infos ->
  Forall (evaluates_all root) infos ->
  exists st1, sync_tokens upper set_code st ts = Ok st1.
Proof.
  intros Hs Hok. revert st infos Hs.
  induction Hok as [|sf ts Hsf _ IH]; intros st infos Hs Hn Hev.
  - now exists st.
  - cbn [flat_map] in Hn. apply Forall2_app_inv_l in Hn
      as [a [b [Ha [Hb ->]]]].
    apply Forall_app in Hev as [Heva Hevb].
    destruct (@sync_token_returns _ _ _ Hs Hsf Ha Heva) as [st2 Hm].
    cbn [sync_tokens]. rewrite Hm. cbn [bind].
    destruct (@sync_token_tallied _ _ _ Hs Hm) as [_ [a' [_ Hta]]].
    eapply IH; [exact (proj1 Hta) | exact Hb | exact Hevb].
Qed.

End Tally.

Lemma normalized_length (ts : list sf_token) :
  Forall token_ok ts ->
  List.length (flat_map normalized_of ts) = set_size ts.
Proof.
  unfold set_size. induction 1 as [|sf ts [Hl Hf] _ IH]; [reflexivity|].
  cbn [flat_map map]. rewrite length_app, list_sum_step, IH. f_equal.
  unfold normalized_of. unfold is_double_faced in Hf.
  destruct (layout sf) as [lay|]; [|congruence].
  destruct (str_eqb lay (lit "double_faced_token")).
  - destruct (card_faces sf); [reflexivity | now destruct (Hf eq_refl)].
  - now destruct (card_faces sf).
Qed.

Lemma grown_refl (st : sync_state) : grown st st.
Proof. unfold grown. repeat split; [lia | lia]. Qed.

Lemma grown_trans (st st1 st2 : sync_state) :
  grown st st1 -> grown st1 st2 -> grown st st2.
Proof.
  intros [H1 [H2 H3]] [H4 [H5 H6]]. unfold grown. repeat split.
  - lia.
  - lia.
  - intros E. rewrite H6 by lia. apply H3. lia.
Qed.

Section Catalog.

Variable upper : str -> str.
Variable set_code : str.

Lemma match_or_create_grown (st st1 : sync_state) (info : token_info) :
  match_or_create upper set_code st info = Ok st1 -> grown st st1.
Proof.
  unfold match_or_create. intros H.
  destruct (xmlMatch upper (xml_root st) info set_code (reprint_count st))
    as [[[r1 found] n1]|] eqn:Hx; [|discriminate].
  cbn [bind] in H.
  destruct (xmlMatch_adds_set_lines _ _ _ _ _ Hx) as [Hle Hset].
  assert (Hsame : n1 = reprint_count st -> r1 = xml_root st).
  { intros ->. eapply xmlMatch_same_count. exact Hx. }
  destruct (negb found); injection H as <-; unfold grown; cbn;
    repeat split; assumption.
Qed.

Lemma sync_faces_grown (faces : list sf_entry) (st st1 : sync_state) :
  sync_faces upper set_code st faces = Ok st1 -> grown st st1.
Proof.
  revert st. induction faces as [|f faces IH]; intros st H.
  - cbn [sync_faces] in H. injection H as <-. apply grown_refl.
  - cbn [sync_faces] in H.
    destruct (fetchTokenInfo f) as [fi|]; [|discriminate]. cbn [bind] in H.
    destruct (match_or_create upper set_code st fi) as [st2|] eqn:Hm;
      [|discriminate].
    cbn [bind] in H.
    eapply grown_trans; [eapply match_or_create_grown; exact Hm | now apply IH].
Qed.

Lemma sync_token_grown (sf : sf_token) (st st1 : sync_state) :
  sync_token upper set_code st sf = Ok st1 -> grown st st1.
Proof.
  unfold sync_token. intros H.
  destruct (layout sf) as [lay|]; [|discriminate]. cbn [subscript bind] in H.
  destruct (str_eqb lay (lit "double_faced_token")).
  - destruct (card_faces sf) as [faces|]; [|discriminate].
    cbn [subscript bind] in H. apply sync_faces_grown in H. exact H.
  - destruct (fetchTokenInfo (entry sf)) as [fi|]; [|discriminate].
    cbn [bind] in H. eapply match_or_create_grown. exact H.
Qed.

Lemma sync_tokens_grown (ts : list sf_token) (st st1 : sync_state) :
  sync_tokens upper set_code st ts = Ok st1 -> grown st st1.
Proof.
  revert st. induction ts as [|sf ts IH]; intros st H.
  - cbn [sync_tokens] in H. injection H as <-. apply grown_refl.
  - cbn [sync_tokens] in H.
    destruct (sync_token upper set_code st sf) as [st2|] eqn:Hm; [|discriminate].
    cbn [bind] in H.
    eapply grown_trans; [eapply sync_token_grown; exact Hm | now apply IH].
Qed.

(** X15: what a run that returns has counted.  The set has been normalized
    to one record for each face of a double-faced token and each other token;
    the reprint count is the number of matching entries of the catalog as it
    was given, summed over the records; the new entries are those made for
    the records that match no entry of that catalog, in the order of the
    set, and the new-entry count is their number; the double-faced count
    is the number of double-faced tokens. *)
Theorem updateTokenXML_tally (root : element) (token_set : list sf_token)
    (st : sync_state) :
  updateTokenXML upper set_code root token_set = Ok st ->
  exists infos,
    Forall2 (fun sf info => fetchTokenInfo sf = Ok info)
            (flat_map normalized_of token_set) infos
    /\ List.length infos = set_size token_set
    /\ reprint_count st = list_sum (map (matches_of root) infos)
    /\ cards st
       = map (fun info => createXmlEntry upper info set_code)
             (filter (unmatched root) infos)
    /\ new_token_count st = List.length (cards st)
    /\ double_faced_count st
       = List.length (filter is_double_faced token_set).
Proof.
  unfold updateTokenXML. intros H.
  apply (@sync_tokens_tallied upper set_code root) in H;
    [|apply same_catalog_refl].
  destruct H as [Hok [infos [Hn [_ [_ [Hr [Hc [Hk Hd]]]]]]]].
  cbn in Hr, Hc, Hk, Hd.
  exists infos. repeat split; try assumption.
  - rewrite <- (Forall2_length Hn). now apply normalized_length.
  - rewrite Hc, length_map. exact Hk.
Qed.

(** X16: a run that returns has met no missing key and no entry on which
    the match condition raises: every token has a [layout], and
    [card_faces] if it is double-faced, every record to normalize has the
    keys that [fetchTokenInfo] reads, and the match condition evaluates on
    every entry of the catalog, as it was given, for each of the records. *)
Theorem updateTokenXML_returns_only_if (root : element)
    (token_set : list sf_token) (st : sync_state) :
  updateTokenXML upper set_code root token_set = Ok st ->
  Forall token_ok token_set
  /\ exists infos,
      Forall2 (fun sf info => fetchTokenInfo sf = Ok info)
              (flat_map normalized_of token_set) infos
      /\ Forall (evaluates_all root) infos.
Proof.
  unfold updateTokenXML. intros H.
  apply (@sync_tokens_tallied upper set_code root) in H;
    [|apply same_catalog_refl].
  destruct H as [Hok [infos [Hn [_ [Hev _]]]]].
  split; [assumption|]. now exists infos.
Qed.

(** X17: a run that returns leaves a catalog with the entries it had, each
    with the children it had apart from [set] lines, and with as many [set]
    lines more as the reprint count says. *)
Theorem updateTokenXML_catalog (root : element) (token_set : list sf_token)
    (st : sync_state) :
  updateTokenXML upper set_code root token_set = Ok st ->
  Forall2 (fun c c' => nonset c' = nonset c)
          (findall_cards root) (findall_cards (xml_root st))
  /\ List.length (findall_cards (xml_root st)) = List.length (findall_cards root)
  /\ set_lines (xml_root st) = set_lines root + reprint_count st.
Proof.
  unfold updateTokenXML. intros H.
  pose proof (sync_tokens_grown _ _ H) as [_ [Hset _]].
  apply (@sync_tokens_tallied upper set_code root) in H;
    [|apply same_catalog_refl].
  destruct H as [_ [infos [_ [Hsame _]]]].
  cbn in Hset. rewrite Nat.sub_0_r in Hset.
  repeat split; [|symmetry; exact (Forall2_length Hsame) | exact Hset].
  unfold same_catalog, same_entry in Hsame.
  eapply Forall2_impl; [|exact Hsame]. intros a b E. now symmetry.
Qed.

(** X18: a run that returns with reprint count 0 has made a new entry for
    every record of the set and leaves the catalog exactly as it was. *)
Theorem updateTokenXML_no_reprint (root : element) (token_set : list sf_token)
    (st : sync_state) :
  updateTokenXML upper set_code root token_set = Ok st ->
  reprint_count st = 0 ->
  xml_root st = root /\ new_token_count st = set_size token_set.
Proof.
  unfold updateTokenXML. intros H H0.
  pose proof (sync_tokens_grown _ _ H) as [_ [_ Hroot]].
  apply (@sync_tokens_tallied upper set_code root) in H;
    [|apply same_catalog_refl].
  destruct H as [Hok [infos [Hn [_ [_ [Hr [_ [Hk _]]]]]]]].
  cbn in Hroot, Hr, Hk. split; [now apply Hroot|].
  rewrite Hk, <- (normalized_length Hok), (Forall2_length Hn).
  f_equal. rewrite H0 in Hr. clear - Hr.
  induction infos as [|i infos IH]; [reflexivity|].
  cbn [map] in Hr. rewrite list_sum_step in Hr.
  assert (Hi : matches_of root i = 0) by lia.
  cbn [filter]. unfold unmatched at 1. unfold matches_of in Hi.
  apply length_zero_iff_nil in Hi.
  assert (He : existsb (fun c => is_match c i) (findall_cards root) = false).
  { destruct (existsb _ _) eqn:E; [|reflexivity].
    apply existsb_exists in E as [c [Hc Hm]].
    assert (In c (filter (fun c => is_match c i) (findall_cards root)))
      by (apply filter_In; now split).
    rewrite Hi in H. destruct H. }
  rewrite He. cbn [negb]. f_equal. apply IH. lia.
Qed.

End Catalog.

(** ** The counts do not depend on the order of the set *)

Lemma Forall2_permutation (A B : Type) (R : A -> B -> Prop)
    (l l' : list A) (m : list B) :
  Permutation l l' -> Forall2 R l m ->
  exists m', Permutation m m' /\ Forall2 R l' m'.
Proof.
  intros Hp. revert m. induction Hp as [|x l l' _ IH|x y l|l l1 l2 _ IH1 _ IH2];
    intros m Hf.
  - inversion Hf; subst. exists []. split; constructor.
  - inversion Hf as [|? b ? m0 Hx Hr]; subst.
    destruct (IH _ Hr) as [m' [Hm Hf']].
    exists (b :: m'). split; [now constructor | now constructor].
  - inversion Hf as [|? b ? m0 Hy Hr]; subst.
    inversion Hr as [|? b' ? m1 Hx Hr']; subst.
    exists (b' :: b :: m1). split; [apply perm_swap | now repeat constructor].
  - destruct (IH1 _ Hf) as [m1 [Hm1 Hf1]].
    destruct (IH2 _ Hf1) as [m2 [Hm2 Hf2]].
    exists m2. split; [now transitivity m1 | assumption].
Qed.

Lemma normalized_functional (l : list sf_entry) (m m' : list token_info) :
  Forall2 (fun sf info => fetchTokenInfo sf = Ok info) l m ->
  Forall2 (fun sf info => fetchTokenInfo sf = Ok info) l m' ->
  m = m'.
Proof.
  intros H. revert m'. induction H as [|x a l m Hx _ IH]; intros m' H'.
  - now inversion H'.
  - inversion H' as [|? b ? m0 Hx' Hr]; subst.
    f_equal; [congruence | now apply IH].
Qed.

Lemma list_sum_permutation (a b : list nat) :
  Permutation a b -> list_sum a = list_sum b.
Proof.
  induction 1; rewrite ?list_sum_step; lia.
Qed.

Lemma filter_length_permutation (A : Type) (f : A -> bool) (a b : list A) :
  Permutation a b ->
  List.length (filter f a) = List.length (filter f b).
Proof.
  induction 1 as [|x a b _ IH|x y a|a b c _ IH1 _ IH2]; cbn [filter].
  - reflexivity.
  - destruct (f x); cbn [List.length]; now rewrite IH.
  - destruct (f x); destruct (f y); reflexivity.
  - now rewrite IH1.
Qed.

Section Order.

Variable upper : str -> str.
Variable set_code : str.

(** X19: the reprint count, the new-entry count and the double-faced count
    of a run do not depend on the order of the tokens in the set: a run on
    the same tokens in another order returns as well, with the same
    counts. *)
Theorem updateTokenXML_order (root : element) (token_set token_set' : list sf_token)
    (st : sync_state) :
  Permutation token_set token_set' ->
  updateTokenXML upper set_code root token_set = Ok st ->
  exists st',
    updateTokenXML upper set_code root token_set' = Ok st'
    /\ reprint_count st' = reprint_count st
    /\ new_token_count st' = new_token_count st
    /\ double_faced_count st' = double_faced_count st.
Proof.
  unfold updateTokenXML. intros Hp H.
  apply (@sync_tokens_tallied upper set_code root) in H;
    [|apply same_catalog_refl].
  destruct H as [Hok [infos [Hn [_ [Hev [Hr [_ [Hk Hd]]]]]]]].
  assert (Hpn : Permutation (flat_map normalized_of token_set)
                            (flat_map normalized_of token_set')).
  { clear - Hp. induction Hp; cbn [flat_map].
    - reflexivity.
    - now apply Permutation_app_head.
    - rewrite !app_assoc. apply Permutation_app_tail, Permutation_app_comm.
    - etransitivity; eassumption. }
  destruct (Forall2_permutation Hpn Hn) as [infos' [Hpi Hn']].
  assert (Hok' : Forall token_ok token_set')
    by (eapply Permutation_Forall; eassumption).
  assert (Hev' : Forall (evaluates_all root) infos')
    by (eapply Permutation_Forall; eassumption).
  destruct (@sync_tokens_returns upper set_code root token_set' infos'
              {| xml_root := root; cards := []; new_token_count := 0;
                 double_faced_count := 0; reprint_count := 0 |}
              (same_catalog_refl root) Hok' Hn' Hev') as [st' H'].
  exists st'. split; [exact H'|].
  apply (@sync_tokens_tallied upper set_code root) in H';
    [|apply same_catalog_refl].
  destruct H' as [_ [infos2 [Hn2 [_ [_ [Hr2 [_ [Hk2 Hd2]]]]]]]].
  rewrite (normalized_functional Hn2 Hn') in *.
  cbn in *. repeat split.
  - rewrite Hr2, Hr. apply list_sum_permutation.
    apply Permutation_map. now symmetry.
  - rewrite Hk2, Hk. apply filter_length_permutation. now symmetry.
  - rewrite Hd2, Hd. apply filter_length_permutation. now symmetry.
Qed.

End Order.

(** ** pullScryfallAPI *)

Section PullFacts.

Variable get_json : nat -> str -> page_json.

Lemma pull_pages_eq (fuel page : nat) (c : char) (url : str)
    (acc : list sf_token) :
  pull_pages get_json (S fuel) page (c :: url) acc
  = match object (get_json page (c :: url)) with
    | None => Some (Raise (KeyError (lit "object")))
    | Some obj =>
        if str_eqb obj (lit "error") then Some (Ok acc)
        else
          match data (get_json page (c :: url)) with
          | None => Some (Raise (KeyError (lit "data")))
          | Some cs =>
              match has_more (get_json page (c :: url)) with
              | Some true =>
                  match next_page (get_json page (c :: url)) with
                  | None => Some (Raise (KeyError (lit "next_page")))
                  | Some next =>
                      pull_pages get_json fuel (S page) next (acc ++ cs)
                  end
              | _ => Some (Ok (acc ++ cs))
              end
          end
    end.
Proof. reflexivity. Qed.

Lemma pull_pages_step (fuel page : nat) (url : str) (acc : list sf_token)
    (r : result (list sf_token)) :
  pull_pages get_json fuel page url acc = Some r ->
  pull_pages get_json (S fuel) page url acc = Some r.
Proof.
  revert page url acc. induction fuel as [|fuel IH]; intros page url acc.
  - destruct url; [trivial | discriminate].
  - destruct url as [|c url]; [trivial|].
    rewrite !pull_pages_eq.
    destruct (object (get_json page (c :: url))) as [obj|]; [|trivial].
    destruct (str_eqb obj (lit "error")); [trivial|].
    destruct (data (get_json page (c :: url))) as [cs|]; [|trivial].
    destruct (has_more (get_json page (c :: url))) as [[|]|]; try trivial.
    destruct (next_page (get_json page (c :: url))) as [next|]; [|trivial].
    apply IH.
Qed.

Lemma pull_pages_more_fuel (fuel fuel' page : nat) (url : str)
    (acc : list sf_token) (r : result (list sf_token)) :
  fuel <= fuel' ->
  pull_pages get_json fuel page url acc = Some r ->
  pull_pages get_json fuel' page url acc = Some r.
Proof.
  induction 1 as [|m _ IH]; [trivial|].
  intros H. apply pull_pages_step. now apply IH.
Qed.

Lemma pull_pages_acc (fuel page : nat) (url : str) (acc : list sf_token) :
  pull_pages get_json fuel page url acc
  = match pull_pages get_json fuel page url [] with
    | Some (Ok r) => Some (Ok (acc ++ r))
    | Some (Raise e) => Some (Raise e)
    | None => None
    end.
Proof.
  revert page url acc. induction fuel as [|fuel IH]; intros page url acc.
  - destruct url; cbn; [now rewrite app_nil_r | reflexivity].
  - destruct url as [|c url]; [cbn; now rewrite app_nil_r|].
    cbn [pull_pages].
    destruct (object (get_json page (c :: url))) as [obj|]; [|reflexivity].
    destruct (str_eqb obj (lit "error")); [now rewrite app_nil_r|].
    destruct (data (get_json page (c :: url))) as [cs|]; [|reflexivity].
    destruct (has_more (get_json page (c :: url))) as [[|]|];
      try reflexivity.
    destruct (next_page (get_json page (c :: url))) as [next|]; [|reflexivity].
    rewrite (IH (S page) next (acc ++ cs)), (IH (S page) next ([] ++ cs)).
    destruct (pull_pages get_json fuel (S page) next []) as [[r|e]|];
      try reflexivity.
    cbn [app]. now rewrite app_assoc.
Qed.

Lemma collects_pull (page : nat) (url : str) (r : list sf_token) :
  collects get_json page url r ->
  exists fuel, pull_pages get_json fuel page url [] = Some (Ok r).
Proof.
  induction 1 as [page
                 |page url Hu Ho
                 |page url obj cs Hu Ho He Hd Hm
                 |page url obj next cs rest Hu Ho He Hd Hm Hn _ [fuel IH]].
  - now exists 0.
  - exists 1. destruct url as [|c url]; [congruence|].
    cbn [pull_pages]. now rewrite Ho.
  - exists 1. destruct url as [|c url]; [congruence|].
    cbn [pull_pages]. rewrite Ho. apply str_eqb_neq in He. rewrite He, Hd.
    destruct (has_more (get_json page (c :: url))) as [[|]|];
      [congruence | reflexivity | reflexivity].
  - exists (S fuel). destruct url as [|c url]; [congruence|].
    cbn [pull_pages]. rewrite Ho. apply str_eqb_neq in He.
    rewrite He, Hd, Hm, Hn, pull_pages_acc, IH. reflexivity.
Qed.

Lemma pull_collects (fuel page : nat) (url : str) (r : list sf_token) :
  pull_pages get_json fuel page url [] = Some (Ok r) ->
  collects get_json page url r.
Proof.
  revert page url r. induction fuel as [|fuel IH]; intros page url r.
  - destruct url; [|discriminate]. cbn. intros H. injection H as <-.
    constructor.
  - destruct url as [|c url].
    + cbn. intros H. injection H as <-. constructor.
    + cbn [pull_pages].
      destruct (object (get_json page (c :: url))) as [obj|] eqn:Ho;
        [|discriminate].
      destruct (str_eqb obj (lit "error")) eqn:He.
      * intros H. injection H as <-. apply str_eqb_eq in He. subst obj.
        apply collects_error; [discriminate | assumption].
      * apply str_eqb_neq in He.
        destruct (data (get_json page (c :: url))) as [cs|] eqn:Hd;
          [|discriminate].
        destruct (has_more (get_json page (c :: url))) as [[|]|] eqn:Hm.
        -- destruct (next_page (get_json page (c :: url))) as [next|] eqn:Hn;
             [|discriminate].
           rewrite pull_pages_acc.
           destruct (pull_pages get_json fuel (S page) next [])
             as [[rest|e]|] eqn:Hr; try discriminate.
           intros H. injection H as <-. cbn [app].
           eapply collects_more; try eassumption; [discriminate|].
           now apply IH.
        -- intros H. injection H as <-. cbn [app].
           eapply collects_last; try eassumption; [discriminate|].
           rewrite Hm. discriminate.
        -- intros H. injection H as <-. cbn [app].
           eapply collects_last; try eassumption; [discriminate|].
           rewrite Hm. discriminate.
Qed.

(** X20: what [pullScryfallAPI] returns, when it returns: the data of the
    pages in the order of the requests, up to the first page that is an
    error page, or has no true [has_more], or names an empty next URL.  The
    tokens of the pages before an error page are kept.  The answer does not
    depend on the bound: once it is there for some number of requests, it
    is the same for every larger number. *)
Theorem pullScryfallAPI_collects (url : str) :
  (forall r,
      (exists fuel, pullScryfallAPI get_json fuel url = Some (Ok r))
      <-> collects get_json 1 url r)
  /\ (forall fuel fuel' answer,
        fuel <= fuel' ->
        pullScryfallAPI get_json fuel url = Some answer ->
        pullScryfallAPI get_json fuel' url = Some answer).
Proof.
  unfold pullScryfallAPI. split.
  - intros r. split.
    + intros [fuel H]. eapply pull_collects. exact H.
    + apply collects_pull.
  - intros fuel fuel' answer Hle. now apply pull_pages_more_fuel.
Qed.

Lemma pull_pages_raise (fuel page : nat) (url : str) (acc : list sf_token)
    (e : exn) :
  pull_pages get_json fuel page url acc = Some (Raise e) ->
  e = KeyError (lit "object") \/ e = KeyError (lit "data")
  \/ e = KeyError (lit "next_page").
Proof.
  revert page url acc. induction fuel as [|fuel IH]; intros page url acc.
  - destruct url; discriminate.
  - destruct url as [|c url]; [discriminate|]. cbn [pull_pages].
    destruct (object (get_json page (c :: url))) as [obj|];
      [|intros H; injection H as <-; now left].
    destruct (str_eqb obj (lit "error")); [discriminate|].
    destruct (data (get_json page (c :: url))) as [cs|];
      [|intros H; injection H as <-; right; now left].
    destruct (has_more (get_json page (c :: url))) as [[|]|];
      try discriminate.
    destruct (next_page (get_json page (c :: url))) as [next|];
      [apply IH | intros H; injection H as <-; right; now right].
Qed.

(** X21: when every request is answered with a JSON dict, which is what
    [get_json] stands for, the only exceptions of the loop are the
    [KeyError]s for [object], [data] and [next_page]; a page without
    [has_more] raises nothing, it is the last page. *)
Theorem pullScryfallAPI_raises (fuel : nat) (url : str) :
  (forall e,
      pullScryfallAPI get_json fuel url = Some (Raise e) ->
      e = KeyError (lit "object") \/ e = KeyError (lit "data")
      \/ e = KeyError (lit "next_page"))
  /\ (forall obj cs,
        url <> [] ->
        object (get_json 1 url) = Some obj -> obj <> lit "error" ->
        data (get_json 1 url) = Some cs ->
        has_more (get_json 1 url) = None ->
        pullScryfallAPI get_json (S fuel) url = Some (Ok cs)).
Proof.
  unfold pullScryfallAPI. split.
  - intros e. apply pull_pages_raise.
  - intros obj cs Hu Ho He Hd Hm. destruct url as [|c url]; [congruence|].
    cbn [pull_pages]. apply str_eqb_neq in He. now rewrite Ho, He, Hd, Hm.
Qed.

(** X22: when every request from some request on is answered with a page
    that has more to come and names the URL just requested as the next one,
    the loop does not end: no bound on the requests gives an answer. *)
Theorem pull_pages_cycle (page : nat) (url obj : str) (cs : list sf_token) :
  url <> [] -> obj <> lit "error" ->
  (forall p, page <= p ->
             object (get_json p url) = Some obj
             /\ data (get_json p url) = Some cs
             /\ has_more (get_json p url) = Some true
             /\ next_page (get_json p url) = Some url) ->
  forall fuel acc, pull_pages get_json fuel page url acc = None.
Proof.
  intros Hu He Hp fuel. apply str_eqb_neq in He.
  revert page Hp. induction fuel as [|fuel IH]; intros page Hp acc.
  - destruct url; [congruence | reflexivity].
  - destruct url as [|c url]; [congruence|]. cbn [pull_pages].
    destruct (Hp page (le_n page)) as [Ho [Hd [Hm Hn]]].
    rewrite Ho, He, Hd, Hm, Hn. apply IH.
    intros p Hle. apply Hp. lia.
Qed.

End PullFacts.

(** ** The further theorems on concrete inputs *)

Lemma createXmlEntry_optional_witness :
  find (createXmlEntry ascii_upper bird_info abc) (lit "text")
  = Some (leaf "text" (lit "Flying"))
  /\ find (createXmlEntry ascii_upper spirit_info abc) (lit "text") = None
  /\ find_path (createXmlEntry ascii_upper bird_info abc)
               (lit "prop") (lit "colors")
     = Some (leaf "colors" (lit "UW"))
  /\ find_path (createXmlEntry ascii_upper spirit_info abc)
               (lit "prop") (lit "pt") = None.
Proof.
  destruct (createXmlEntry_optional ascii_upper bird_info abc)
    as [_ [Ht [_ [Hc _]]]].
  destruct (createXmlEntry_optional ascii_upper spirit_info abc)
    as [Ht' [_ [_ [_ [Hp' _]]]]].
  split; [|split; [|split]].
  - apply Ht. discriminate.
  - apply Ht'. reflexivity.
  - apply Hc. discriminate.
  - apply Hp'. reflexivity.
Defined.

Lemma pt_iff_power_and_toughness_witness :
  find_path (createXmlEntry ascii_upper (goblin_info "Goblin") abc)
            (lit "prop") (lit "pt")
  = Some (leaf "pt" (lit "1/1")).
Proof.
  exact (@pt_iff_power_and_toughness ascii_upper goblin_card
           (goblin_info "Goblin") abc eq_refl).
Defined.

Lemma created_entry_matches_record_witness :
  card_matches (createXmlEntry ascii_upper (goblin_info "Goblin") abc)
               (goblin_info "Goblin")
  = Ok true.
Proof.
  apply (@created_entry_matches_record ascii_upper goblin_card
           (goblin_info "Goblin") abc eq_refl).
  repeat constructor.
Defined.

Lemma card_matches_shorter_name_witness :
  card_matches (goblin_entry "Goblin A") (with_name (goblin_info "Goblin") (lit "Gob"))
  = Ok true.
Proof.
  apply (@card_matches_shorter_name (goblin_entry "Goblin A")
           (goblin_info "Goblin") (lit "Gob")); reflexivity.
Defined.

Lemma card_matches_colors_order_witness :
  card_matches (bird_entry "WU") bird_info
  = card_matches (bird_entry "UW") bird_info.
Proof.
  apply card_matches_colors_order; try reflexivity.
  apply perm_swap.
Defined.

Lemma xmlMatch_false_unchanged_witness :
  exists root' n',
    xmlMatch ascii_upper goblin_catalog spirit_info abc 4 = Ok (root', false, n')
    /\ root' = goblin_catalog /\ n' = 4.
Proof.
  exists goblin_catalog, 4.
  assert (H : xmlMatch ascii_upper goblin_catalog spirit_info abc 4
              = Ok (goblin_catalog, false, 4)) by reflexivity.
  split; [exact H|].
  exact (@xmlMatch_false_unchanged ascii_upper _ _ _ _ _ _ H).
Defined.

Lemma xmlMatch_set_lines_witness :
  exists root',
    xmlMatch ascii_upper goblin_catalog (goblin_info "Goblin") abc 4
    = Ok (root', true, 6)
    /\ set_lines root' = set_lines goblin_catalog + (6 - 4).
Proof.
  eexists. split; [reflexivity|].
  eapply (@xmlMatch_set_lines ascii_upper goblin_catalog _
            (goblin_info "Goblin") abc 4 6 true).
  reflexivity.
Defined.

Lemma xmlMatch_twice_witness :
  exists root1 root2,
    xmlMatch ascii_upper goblin_catalog (goblin_info "Goblin") abc 0
    = Ok (root1, true, 2)
    /\ xmlMatch ascii_upper root1 (goblin_info "Goblin") (lit "xyz") 2
       = Ok (root2, true, 4)
    /\ 4 = 2 + List.length (filter (fun c => is_match c (goblin_info "Goblin"))
                                   (findall_cards goblin_catalog)).
Proof.
  eexists. eexists. split; [reflexivity|]. split; [reflexivity|].
  eapply (@xmlMatch_twice ascii_upper goblin_catalog _ _
            (goblin_info "Goblin") (goblin_info "Goblin") abc (lit "xyz")
            0 2 4 true true); reflexivity.
Defined.

Lemma updateTokenXML_tally_witness :
  exists st infos,
    updateTokenXML ascii_upper abc goblin_catalog
      [single goblin_card; double_faced [spirit_card; treasure_card]] = Ok st
    /\ List.length infos = 3
    /\ reprint_count st = list_sum (map (matches_of goblin_catalog) infos)
    /\ new_token_count st = List.length (cards st)
    /\ double_faced_count st = 1.
Proof.
  destruct (updateTokenXML ascii_upper abc goblin_catalog
              [single goblin_card; double_faced [spirit_card; treasure_card]])
    as [st|e] eqn:H; [|vm_compute in H; discriminate].
  destruct (@updateTokenXML_tally ascii_upper abc goblin_catalog _ _ H)
    as [infos [_ [Hl [Hr [_ [Hn Hd]]]]]].
  exists st, infos. repeat split; assumption.
Defined.

Lemma updateTokenXML_catalog_witness :
  exists st,
    updateTokenXML ascii_upper abc goblin_catalog
      [single goblin_card; single spirit_card] = Ok st
    /\ set_lines (xml_root st) = set_lines goblin_catalog + reprint_count st.
Proof.
  destruct (updateTokenXML ascii_upper abc goblin_catalog
              [single goblin_card; single spirit_card])
    as [st|e] eqn:H; [|vm_compute in H; discriminate].
  destruct (@updateTokenXML_catalog ascii_upper abc goblin_catalog _ _ H)
    as [_ [_ Hs]].
  exists st. split; [reflexivity | exact Hs].
Defined.

Lemma updateTokenXML_no_reprint_witness :
  exists st,
    updateTokenXML ascii_upper abc goblin_catalog
      [single spirit_card; single treasure_card] = Ok st
    /\ xml_root st = goblin_catalog
    /\ new_token_count st = 2.
Proof.
  destruct (updateTokenXML ascii_upper abc goblin_catalog
              [single spirit_card; single treasure_card])
    as [st|e] eqn:H; [|vm_compute in H; discriminate].
  assert (H0 : reprint_count st = 0)
    by (vm_compute in H; injection H as <-; reflexivity).
  destruct (@updateTokenXML_no_reprint ascii_upper abc goblin_catalog _ _ H H0)
    as [Hr Hn].
  exists st. repeat split; assumption.
Defined.

Lemma updateTokenXML_order_witness :
  exists st st',
    updateTokenXML ascii_upper abc goblin_catalog
      [single goblin_card; single spirit_card] = Ok st
    /\ updateTokenXML ascii_upper abc goblin_catalog
         [single spirit_card; single goblin_card] = Ok st'
    /\ reprint_count st' = reprint_count st
    /\ new_token_count st' = new_token_count st.
Proof.
  destruct (updateTokenXML ascii_upper abc goblin_catalog
              [single goblin_card; single spirit_card])
    as [st|e] eqn:H; [|vm_compute in H; discriminate].
  destruct (@updateTokenXML_order ascii_upper abc goblin_catalog _
              [single spirit_card; single goblin_card] st
              (perm_swap _ _ _) H)
    as [st' [H' [Hr [Hn _]]]].
  exists st, st'. repeat split; assumption.
Defined.

Lemma pullScryfallAPI_collects_witness :
  pullScryfallAPI two_pages 7 (lit "p1")
  = Some (Ok [single goblin_card; single spirit_card])
  /\ pullScryfallAPI page_then_error 7 (lit "p1")
     = Some (Ok [single goblin_card])
  /\ collects page_then_error 1 (lit "p1") [single goblin_card].
Proof.
  split; [|split].
  - apply (proj2 (pullScryfallAPI_collects two_pages (lit "p1")) 2 7);
      [lia | reflexivity].
  - apply (proj2 (pullScryfallAPI_collects page_then_error (lit "p1")) 2 7);
      [lia | reflexivity].
  - apply (proj1 (pullScryfallAPI_collects page_then_error (lit "p1"))).
    exists 2. reflexivity.
Defined.

Lemma pullScryfallAPI_raises_witness :
  KeyError (lit "object") = KeyError (lit "object")
  \/ KeyError (lit "object") = KeyError (lit "data")
  \/ KeyError (lit "object") = KeyError (lit "next_page").
Proof.
  apply (proj1 (pullScryfallAPI_raises no_object 3 (lit "p1"))).
  reflexivity.
Defined.

Lemma pull_pages_cycle_witness :
  pullScryfallAPI same_page_again 50 (lit "p1") = None.
Proof.
  unfold pullScryfallAPI.
  apply (@pull_pages_cycle same_page_again 1 (lit "p1") (lit "list")
           [single goblin_card]).
  - discriminate.
  - discriminate.
  - intros p _. repeat split.
Defined.

(** ** Entries without a name or a type *)

Lemma raises_on_not_ok (upper : str -> str) (root c : element)
    (info : token_info) (set_code : str) (n : nat) :
  In c (findall_cards root) -> raises_on c info = true ->
  forall r, xmlMatch upper root info set_code n <> Ok r.
Proof.
  intros Hc Hr r H. apply xmlMatch_inv in H. rewrite Forall_forall in H.
  apply H in Hc. apply evaluates_raises_on in Hc. congruence.
Qed.

Lemma startswith_longer (nm p : str) :
  List.length nm < List.length p -> startswith nm p = false.
Proof.
  intros H. destruct (startswith nm p) eqn:E; [|reflexivity].
  apply startswith_length in E. lia.
Qed.

Lemma outsider_no_match (root c : element) :
  In c (findall_cards root) -> find c (lit "name") <> None ->
  card_matches c (outsider root) = Ok false.
Proof.
  intros Hc Hn. rewrite card_matches_unfold.
  unfold findtext.
  destruct (find c (lit "name")) as [el|] eqn:En; [|congruence].
  cbn [option_map]. rewrite startswith_longer; [reflexivity|].
  unfold outsider, plain_info. cbn [token_name]. rewrite repeat_length.
  unfold longest_name, findtext.
  assert (H : forall l, In c l ->
              List.length (text_or_empty el)
              <= list_max (map (fun x => List.length
                                  (or_empty (option_map text_or_empty
                                               (find x (lit "name"))))) l)).
  { induction l as [|x l IH]; intros Hin; [destruct Hin|].
    cbn [map list_max fold_right]. destruct Hin as [->|Hin].
    - rewrite En. cbn [option_map or_empty]. lia.
    - specialize (IH Hin). unfold list_max in IH. lia. }
  specialize (H _ Hc). lia.
Qed.

Lemma outsider_returns_false (upper : str -> str) (root : element)
    (set_code : str) (n : nat) :
  (forall c, In c (findall_cards root) -> find c (lit "name") <> None) ->
  xmlMatch upper root (outsider root) set_code n = Ok (root, false, n).
Proof.
  intros Hn.
  assert (Hno : forall c, In c (findall_cards root) ->
                          is_match c (outsider root) = false).
  { intros c Hc. unfold is_match.
    now rewrite (outsider_no_match _ _ Hc (Hn c Hc)). }
  assert (Hev : Forall (fun c => evaluates c (outsider root)) (findall_cards root)).
  { apply Forall_forall. intros c Hc. exists false.
    exact (outsider_no_match _ _ Hc (Hn c Hc)). }
  rewrite (@xmlMatch_ok upper (outsider root) set_code root n Hev).
  rewrite (amend_root_id upper (outsider root) set_code root Hno).
  rewrite (filter_none _ _ Hno). cbn [List.length]. rewrite Nat.add_0_r.
  do 2 f_equal. f_equal.
  destruct (existsb (fun c => is_match c (outsider root)) (findall_cards root))
    eqn:E; [|reflexivity].
  apply existsb_exists in E as [c [Hc Hm]]. rewrite (Hno c Hc) in Hm.
  discriminate.
Qed.

(** C10, as the code has it: [xmlMatch] can return for every record only on
    a catalog whose entries all have a [name] child and a [prop/type]
    element.  Where an entry has no [name], matching any record raises
    instead of returning.  Where an entry has no [prop/type], matching a
    record raises when the entry's name starts with the record's name and
    its text is the record's text, and there is such a record for every
    such entry; a record that fails the name or the text test is compared
    with the entry without an exception, and on a catalog whose entries all
    have a name some record is compared with all of them and [False] is
    returned.  The lookups of [text], [prop/colors] and [prop/pt] are
    guarded: the condition evaluates on every entry that has a name and a
    type. *)
Theorem xmlMatch_total_only_if_comparable (upper : str -> str) :
  (forall root,
      (forall info set_code n,
          exists r, xmlMatch upper root info set_code n = Ok r) ->
      Forall comparable (findall_cards root))
  /\ (forall root c info set_code n r,
        In c (findall_cards root) -> find c (lit "name") = None ->
        xmlMatch upper root info set_code n <> Ok r)
  /\ (forall root c nm info set_code n r,
        In c (findall_cards root) ->
        find_path c (lit "prop") (lit "type") = None ->
        findtext c (lit "name") = Some nm ->
        startswith nm (token_name info) = true ->
        or_empty (findtext c (lit "text")) = token_text info ->
        xmlMatch upper root info set_code n <> Ok r)
  /\ (forall c, ~ comparable c ->
                card_matches c (probe c) = Raise AttributeError)
  /\ (forall c nm info,
        find_path c (lit "prop") (lit "type") = None ->
        findtext c (lit "name") = Some nm ->
        startswith nm (token_name info) = false
        \/ or_empty (findtext c (lit "text")) <> token_text info ->
        card_matches c info = Ok false)
  /\ (forall root set_code n,
        (forall c, In c (findall_cards root) -> find c (lit "name") <> None) ->
        xmlMatch upper root (outsider root) set_code n = Ok (root, false, n))
  /\ (forall c info, comparable c -> exists b, card_matches c info = Ok b)
  /\ (forall set_code n,
        xmlMatch upper (catalog_of [entry_no_type]) (goblin_info "Goblin")
                 set_code n
        = Raise AttributeError)
  /\ (forall info set_code n,
        xmlMatch upper (catalog_of [entry_no_name]) info set_code n
        = Raise AttributeError).
Proof.
  repeat apply conj.
  - intros root H. apply Forall_forall. intros c Hc.
    apply probe_evaluates_comparable.
    destruct (H (probe c) [] 0) as [r Hr].
    apply xmlMatch_inv in Hr.
    rewrite Forall_forall in Hr. now apply Hr.
  - intros root c info set_code n r Hc Hn.
    apply (raises_on_not_ok upper root c info set_code n Hc).
    unfold raises_on, findtext. now rewrite Hn.
  - intros root c nm info set_code n r Hc Ht Hn Hs Hx.
    apply (raises_on_not_ok upper root c info set_code n Hc).
    unfold raises_on. rewrite Hn, Hs, Hx, Ht, str_eqb_refl. reflexivity.
  - intros c Hc. rewrite card_matches_raises_on.
    destruct (raises_on c (probe c)) eqn:E; [reflexivity|].
    exfalso. apply Hc. apply probe_evaluates_comparable.
    now apply evaluates_raises_on.
  - intros c nm info Ht Hn Hor. rewrite card_matches_unfold, Hn.
    destruct Hor as [Hs|Hx].
    + now rewrite Hs.
    + apply str_eqb_neq in Hx. rewrite Hx.
      now destruct (startswith nm (token_name info)).
  - intros root set_code n Hn. now apply outsider_returns_false.
  - intros c info Hc. now apply comparable_evaluates.
  - reflexivity.
  - reflexivity.
Qed.

Lemma xmlMatch_total_only_if_comparable_witness :
  (forall r, xmlMatch ascii_upper (catalog_of [goblin_entry "Goblin"; entry_no_type])
                      (goblin_info "Goblin") abc 0 <> Ok r)
  /\ card_matches entry_no_type spirit_info = Ok false
  /\ exists b, card_matches entry_bare (goblin_info "Goblin") = Ok b.
Proof.
  destruct (xmlMatch_total_only_if_comparable ascii_upper)
    as [_ [_ [Htype [_ [Hfalse [_ [Hbare _]]]]]]].
  split; [|split].
  - intros r.
    apply (Htype (catalog_of [goblin_entry "Goblin"; entry_no_type])
                 entry_no_type (lit "Goblin") (goblin_info "Goblin") abc 0 r).
    + right. left. reflexivity.
    + reflexivity.
    + reflexivity.
    + reflexivity.
    + reflexivity.
  - apply (Hfalse entry_no_type (lit "Goblin") spirit_info).
    + reflexivity.
    + reflexivity.
    + left. reflexivity.
  - apply Hbare. split; discriminate.
Defined.

(** C10 fails as stated: on the catalog of one entry without [prop/type],
    matching a record whose name the entry's name does not start with
    raises nothing; [False] is returned and nothing has changed. *)
Lemma no_type_entry_compares_false :
  findall_cards (catalog_of [entry_no_type]) = [entry_no_type]
  /\ find_path entry_no_type (lit "prop") (lit "type") = None
  /\ xmlMatch ascii_upper (catalog_of [entry_no_type]) spirit_info abc 3
     = Ok (catalog_of [entry_no_type], false, 3)
  /\ ~ (exists e, xmlMatch ascii_upper (catalog_of [entry_no_type])
                           spirit_info abc 3 = Raise e).
Proof.
  split; [reflexivity|]. split; [reflexivity|]. split; [reflexivity|].
  intros [e H]. discriminate.
Qed.

(** X11: the condition of line 145 raises on an entry exactly when the entry
    has no [name] child, or has no [prop/type] while its name starts with
    the record's name and its text is the record's text; what it raises is
    [AttributeError].  A call of [xmlMatch] that returns has met no such
    entry. *)
Theorem card_matches_raises_iff (upper : str -> str) (c : element)
    (info : token_info) :
  ((exists e, card_matches c info = Raise e) <->
   find c (lit "name") = None
   \/ (exists nm, findtext c (lit "name") = Some nm
                  /\ startswith nm (token_name info) = true)
      /\ or_empty (findtext c (lit "text")) = token_text info
      /\ find_path c (lit "prop") (lit "type") = None)
  /\ (forall e, card_matches c info = Raise e -> e = AttributeError)
  /\ (forall root root' set_code n n' match_found,
        xmlMatch upper root info set_code n = Ok (root', match_found, n') ->
        In c (findall_cards root) ->
        exists b, card_matches c info = Ok b).
Proof.
  split; [|split].
  - rewrite card_matches_raises_on. unfold raises_on, findtext.
    destruct (find c (lit "name")) as [el|]; cbn [option_map].
    2:{ split; [now left | intros _; eexists; reflexivity]. }
    destruct (startswith (text_or_empty el) (token_name info)) eqn:Hs;
      cbn [andb].
    2:{ split; [intros [e H]; discriminate|].
        intros [H|[[nm [Hn Hp]] _]]; [discriminate|].
        injection Hn as <-. congruence. }
    destruct (str_eqb _ (token_text info)) eqn:Hx; cbn [andb].
    2:{ apply str_eqb_neq in Hx. split; [intros [e H]; discriminate|].
        intros [H|[_ [H _]]]; [discriminate | contradiction]. }
    apply str_eqb_eq in Hx.
    destruct (find_path c (lit "prop") (lit "type")) as [ty|];
      cbn [iselement negb].
    + split; [intros [e H]; discriminate|].
      intros [H|[_ [_ H]]]; discriminate.
    + split; [|intros _; eexists; reflexivity].
      intros _. right. split; [|split; [assumption | reflexivity]].
      now exists (text_or_empty el).
  - intros e. rewrite card_matches_raises_on.
    destruct (raises_on c info); congruence.
  - intros root root' set_code n n' found H Hc.
    apply xmlMatch_inv in H. rewrite Forall_forall in H. now apply H.
Qed.

Lemma card_matches_raises_iff_witness :
  (exists e, card_matches entry_no_type (goblin_info "Goblin") = Raise e)
  /\ exists b, card_matches (goblin_entry "Goblin A") (goblin_info "Goblin") = Ok b.
Proof.
  split.
  - apply (proj1 (card_matches_raises_iff ascii_upper entry_no_type
                    (goblin_info "Goblin"))).
    right. split; [|split; reflexivity].
    exists (lit "Goblin"). split; reflexivity.
  - assert (H : xmlMatch ascii_upper goblin_catalog (goblin_info "Goblin") abc 0
                = Ok (amend_root ascii_upper (goblin_info "Goblin") abc
                                 goblin_catalog, true, 2))
      by reflexivity.
    apply (proj2 (proj2 (card_matches_raises_iff ascii_upper
                           (goblin_entry "Goblin A") (goblin_info "Goblin")))
             _ _ _ _ _ _ H).
    left. reflexivity.
Defined.

Lemma updateTokenXML_returns_only_if_witness :
  Forall token_ok [single goblin_card; double_faced [spirit_card; treasure_card]].
Proof.
  destruct (updateTokenXML ascii_upper abc goblin_catalog
              [single goblin_card; double_faced [spirit_card; treasure_card]])
    as [st|e] eqn:H; [|vm_compute in H; discriminate].
  exact (proj1 (@updateTokenXML_returns_only_if ascii_upper abc goblin_catalog
                  _ _ H)).
Defined.
